(** * Transcoder: the video library, the worker-pool dispatcher,
      the most-frequently-requested queue and the fragment cache.

    A shallow embedding of the Go packages [video], [pkg/dispatcher],
    [pkg/mfr] and [client], and the properties stated about them. *)

From Stdlib Require Import ZArith Lia List Bool Ascii String Sorted.
From stdpp Require Import base option list gmap strings pretty.

Local Open Scope string_scope.
Local Open Scope list_scope.
Local Open Scope nat_scope.

Set Warnings "-abstract-large-number".

(** ** Package [video]: two-tier library (video/video.go) *)

Module video.

(** Go's [error] interface, as far as the library is concerned, is a value
    that is passed on untouched; it is identified by its message. *)
Definition error := string.

(** [time.Duration]: a signed 64-bit count of nanoseconds. *)
Definition Duration := Z.
Definition Second : Duration := 1000000000%Z.

(** [context.Context]: the library only ever builds a deadline on top of
    [context.Background()], so a context is its time allowance. *)
Record Context := { allowance : option Duration }.

Definition context_Background : Context := {| allowance := None |}.

Definition context_WithTimeout (parent : Context) (d : Duration) : Context :=
  {| allowance := Some (match allowance parent with
                        | None => d
                        | Some p => Z.min p d
                        end) |}.

(** The fields of [Video] that [Furlough] and [Retire] read. *)
Record Video := {
  SDHash : string;
  URL : string;
  Size : Z;
  CreatedAt : Z;
  LastAccessed : Z
}.

(** [storage.LocalDriver], [storage.RemoteDriver] and [Queries] are
    collaborators of the library; each owns a state of its own and may
    fail.  Their [Delete] takes the hash alone; the queries take a context
    as first argument. *)
Class LocalDriver (L : Type) := {
  local_Delete : string -> L -> option error * L
}.

Class RemoteDriver (R : Type) := {
  remote_Delete : string -> R -> option error * R
}.

Class Queries (D : Type) := {
  queries_UpdatePath : Context -> string -> string -> D -> option error * D;
  queries_Delete : Context -> string -> D -> option error * D
}.

(** A [Queries] implementation that never sees a deadline: whatever context
    it is handed, it behaves as under [context.Background()]. *)
Definition deadline_blind {D} (Q : Queries D) : Queries D := {|
  queries_UpdatePath := fun _ h p d => @queries_UpdatePath D Q context_Background h p d;
  queries_Delete := fun _ h d => @queries_Delete D Q context_Background h d
|}.

(** What a library operation does to the outside, in program order. *)
Inductive Call :=
| LocalDelete (sdHash : string)
| RemoteDelete (sdHash : string)
| QueriesUpdatePath (ctx : Context) (sdHash path : string)
| QueriesDelete (ctx : Context) (sdHash : string).

Inductive Level := Info | Warn.

Inductive Event :=
| ECall (c : Call) (res : option error)
| ELog (lvl : Level) (msg : string)
| ECancel (ctx : Context).

(** The context a call receives, if any. *)
Definition call_context (c : Call) : option Context :=
  match c with
  | LocalDelete _ | RemoteDelete _ => None
  | QueriesUpdatePath ctx _ _ | QueriesDelete ctx _ => Some ctx
  end.

Definition is_metadata_call (c : Call) : bool :=
  match c with
  | LocalDelete _ | RemoteDelete _ => false
  | QueriesUpdatePath _ _ _ | QueriesDelete _ _ => true
  end.

(** The driver calls of a trace, in order, with what each returned. *)
Fixpoint calls (tr : list Event) : list (Call * option error) :=
  match tr with
  | [] => []
  | ECall c r :: tr' => (c, r) :: calls tr'
  | _ :: tr' => calls tr'
  end.

Section Library.

Context {L R D : Type}.
Context {local : LocalDriver L} {remote : RemoteDriver R} {queries : Queries D}.

(** The three stores a [Library] reaches: local bytes, remote bytes and
    the metadata records. *)
Record World := { w_local : L; w_remote : R; w_db : D }.

(** Library operations thread the world and log what they did. *)
Definition M (A : Type) : Type := World -> A * World * list Event.

Definition ret {A} (a : A) : M A := fun w => (a, w, []).

Definition bind {A B} (m : M A) (k : A -> M B) : M B :=
  fun w =>
    let '(a, w1, t1) := m w in
    let '(b, w2, t2) := k a w1 in
    (b, w2, t1 ++ t2).

Notation "x <- m ;; k" := (bind m (fun x => k))
  (at level 100, m at next level, right associativity).
Notation "m ;;; k" := (bind m (fun _ => k))
  (at level 100, right associativity).

Definition emit (e : Event) : M unit := fun w => (tt, w, [e]).

(** [q.local.Delete(h)] *)
Definition do_local_Delete (h : string) : M (option error) :=
  fun w =>
    let '(r, l') := local_Delete h (w_local w) in
    (r, {| w_local := l'; w_remote := w_remote w; w_db := w_db w |},
     [ECall (LocalDelete h) r]).

(** [q.remote.Delete(h)] *)
Definition do_remote_Delete (h : string) : M (option error) :=
  fun w =>
    let '(r, r') := remote_Delete h (w_remote w) in
    (r, {| w_local := w_local w; w_remote := r'; w_db := w_db w |},
     [ECall (RemoteDelete h) r]).

(** [q.queries.UpdatePath(ctx, h, path)] *)
Definition do_UpdatePath (ctx : Context) (h path : string) : M (option error) :=
  fun w =>
    let '(r, d') := queries_UpdatePath ctx h path (w_db w) in
    (r, {| w_local := w_local w; w_remote := w_remote w; w_db := d' |},
     [ECall (QueriesUpdatePath ctx h path) r]).

(** [q.queries.Delete(ctx, h)] *)
Definition do_queries_Delete (ctx : Context) (h : string) : M (option error) :=
  fun w =>
    let '(r, d') := queries_Delete ctx h (w_db w) in
    (r, {| w_local := w_local w; w_remote := w_remote w; w_db := d' |},
     [ECall (QueriesDelete ctx h) r]).

(** [func (q Library) Furlough(v *Video) error]; the deferred [cancel()]
    runs on every return path. *)
Definition Furlough (v : Video) : M (option error) :=
  let ctx := context_WithTimeout context_Background (5 * Second)%Z in
  err <- do_local_Delete (SDHash v) ;;
  match err with
  | Some e =>
      emit (ELog Warn "failed to delete local video") ;;;
      emit (ECancel ctx) ;;;
      ret (Some e)
  | None =>
      err <- do_UpdatePath ctx (SDHash v) "" ;;
      match err with
      | Some e =>
          emit (ELog Warn "failed to mark video as deleted locally") ;;;
          emit (ECancel ctx) ;;;
          ret (Some e)
      | None =>
          emit (ELog Info "video furloughed") ;;;
          emit (ECancel ctx) ;;;
          ret None
      end
  end.

(** [func (q Library) Retire(v *Video) error] *)
Definition Retire (v : Video) : M (option error) :=
  let ctx := context_WithTimeout context_Background (5 * Second)%Z in
  err <- do_remote_Delete (SDHash v) ;;
  match err with
  | Some e =>
      emit (ELog Warn "failed to delete remote video") ;;;
      emit (ECancel ctx) ;;;
      ret (Some e)
  | None =>
      err <- do_queries_Delete ctx (SDHash v) ;;
      match err with
      | Some e =>
          emit (ELog Warn "failed to delete video record") ;;;
          emit (ECancel ctx) ;;;
          ret (Some e)
      | None =>
          emit (ELog Info "video retired") ;;;
          emit (ECancel ctx) ;;;
          ret None
      end
  end.

End Library.

Arguments World : clear implicits.

(** The outcome of an operation: the error it returns, the world it
    leaves, the driver calls it made. *)
Definition returned {L R D A} (x : A * World L R D * list Event) : A :=
  fst (fst x).
Definition world_after {L R D A} (x : A * World L R D * list Event)
  : World L R D := snd (fst x).
Definition calls_made {L R D A} (x : A * World L R D * list Event)
  : list (Call * option error) := calls (snd x).

(** The log lines of a trace, and the contexts it cancels, in order. *)
Fixpoint logs (tr : list Event) : list Level :=
  match tr with
  | [] => []
  | ELog lvl _ :: tr' => lvl :: logs tr'
  | _ :: tr' => logs tr'
  end.

Fixpoint cancels (tr : list Event) : list Context :=
  match tr with
  | [] => []
  | ECancel ctx :: tr' => ctx :: cancels tr'
  | _ :: tr' => cancels tr'
  end.

(** The context both operations build: five seconds from now. *)
Definition ctx5 : Context := context_WithTimeout context_Background (5 * Second)%Z.

(** *** A concrete library, for running the operations

    Stores are finite maps from hash to a byte count (local, remote) or to
    a record's local path (metadata); deleting an unknown hash fails, and
    the queries fail once no time is left. *)
Definition store := gmap string Z.

Definition store_Delete (what : string) (h : string) (s : store)
  : option error * store :=
  match s !! h with
  | Some _ => (None, delete h s)
  | None => (Some (what +:+ ": no such object"), s)
  end.

Definition expired (ctx : Context) : bool :=
  match allowance ctx with
  | Some d => (d <=? 0)%Z
  | None => false
  end.

Definition paths := gmap string string.

#[export] Instance map_local : LocalDriver store :=
  {| local_Delete := store_Delete "local" |}.

#[export] Instance map_remote : RemoteDriver store :=
  {| remote_Delete := store_Delete "remote" |}.

#[export] Instance map_queries : Queries paths := {|
  queries_UpdatePath := fun ctx h p (d : paths) =>
    if expired ctx then (Some "context deadline exceeded", d)
    else match d !! h with
         | Some _ => (None, <[h := p]> d)
         | None => (Some "sql: no rows in result set", d)
         end;
  queries_Delete := fun ctx h (d : paths) =>
    if expired ctx then (Some "context deadline exceeded", d)
    else (None, delete h d)
|}.

(** A database that outlasts every deadline: it answers only callers that
    set none. *)
Definition stalled_queries : Queries paths := {|
  queries_UpdatePath := fun ctx h p (d : paths) =>
    match allowance ctx with
    | Some _ => (Some "context deadline exceeded", d)
    | None => (None, <[h := p]> d)
    end;
  queries_Delete := fun ctx h (d : paths) =>
    match allowance ctx with
    | Some _ => (Some "context deadline exceeded", d)
    | None => (None, delete h d)
    end
|}.

Definition sample_video : Video :=
  {| SDHash := "abc"; URL := "lbry://one"; Size := 10%Z;
     CreatedAt := 0%Z; LastAccessed := 0%Z |}.

Definition sample_world : World store store paths :=
  {| w_local := {[ "abc" := 10%Z ]};
     w_remote := {[ "abc" := 10%Z ]};
     w_db := {[ "abc" := "/videos/abc" ]} |}.

Definition bare_world : World store store paths :=
  {| w_local := ∅; w_remote := ∅; w_db := {[ "abc" := "/videos/abc" ]} |}.

End video.

(** ** Package [pkg/dispatcher]: worker pool (dispatcher.go) *)

Module dispatcher.

(** *** Channels

    A buffered channel is its capacity and its queued elements, oldest
    first.  Sending to a full channel and receiving from an empty one
    block: the operation is not enabled ([None]).  The unbuffered
    channels of the package (a worker's [tasks] and [stopChan], the
    dispatcher's [stopChan]) hold nothing; a send on them happens
    together with the matching receive, as one step of the system. *)
Record chan (A : Type) := { cap : nat; buf : list A }.
Arguments cap {A} _.
Arguments buf {A} _.

Definition make_chan {A} (n : nat) : chan A := {| cap := n; buf := [] |}.

Definition chan_send {A} (x : A) (c : chan A) : option (chan A) :=
  if length (buf c) <? cap c
  then Some {| cap := cap c; buf := buf c ++ [x] |}
  else None.

Definition chan_recv {A} (c : chan A) : option (A * chan A) :=
  match buf c with
  | x :: b => Some (x, {| cap := cap c; buf := b |})
  | [] => None
  end.

Section Dispatcher.

(** [Payload interface{}] *)
Context {P : Type}.

(** [type Task struct { Payload; Dispatcher }]: there is one dispatcher,
    so the back-reference carries no information. *)
Record Task := { Payload : P }.

(** [type Workload interface { Do(Task) error }], with the state [W] the
    workload keeps. *)
Class Workload (W : Type) := {
  Do : Task -> W -> option string * W
}.

Context {W : Type} {workload : Workload W}.

(** Where a worker's goroutine stands in [Worker.Start]. *)
Inductive WorkerPC :=
| WInit                 (* spawned, before w.wait.Add(1) *)
| WPublish              (* at w.pool <- w.tasks *)
| WSelect               (* at the select *)
| WDo (t : Task)        (* received t, inside w.workload.Do(t) *)
| WAck                  (* received from w.stopChan, before w.wait.Done() *)
| WExited.              (* returned *)

(** [type Worker struct]: [tasks] and [stopChan] are unbuffered and
    private to the worker, so its [ID] names them; [pool] is the
    dispatcher's registry; [wait] is the WaitGroup counter. *)
Record Worker := { ID : nat; pc : WorkerPC; wait : nat }.

Definition NewWorker (id : nat) : Worker :=
  {| ID := id; pc := WInit; wait := 0 |}.

(** Where the routing goroutine of [Start] stands. *)
Inductive RouterPC :=
| RSelect               (* at the select on d.tasks / d.stopChan *)
| RStopSend (i : nat)   (* in the stop branch, at workers[i].stopChan <- true *)
| RStopWait (i : nat)   (* in workers[i].Stop(), at w.wait.Wait() *)
| RDone.                (* returned *)

(** A goroutine spawned per routed task. *)
Inductive Handoff :=
| HTake (t : Task)              (* at workerQueue := <-d.workerPool *)
| HSend (t : Task) (w : nat).   (* at workerQueue <- task, for worker w *)

(** The goroutine that calls [Dispatcher.Stop]. *)
Inductive StopPC :=
| SIdle                 (* Stop not called *)
| SSending              (* inside Stop, at d.stopChan <- true *)
| SReturned.            (* Stop has returned *)

(** [type Dispatcher struct] together with the goroutines that run on it. *)
Record State := {
  workerPool : chan nat;
  workers : list Worker;
  tasks : chan Task;
  router : RouterPC;
  handoffs : list Handoff;
  stopCall : StopPC;
  wl : W
}.

Definition set_workerPool (c : chan nat) (s : State) : State :=
  {| workerPool := c; workers := workers s; tasks := tasks s;
     router := router s; handoffs := handoffs s; stopCall := stopCall s;
     wl := wl s |}.

Definition set_workers (ws : list Worker) (s : State) : State :=
  {| workerPool := workerPool s; workers := ws; tasks := tasks s;
     router := router s; handoffs := handoffs s; stopCall := stopCall s;
     wl := wl s |}.

Definition set_tasks (c : chan Task) (s : State) : State :=
  {| workerPool := workerPool s; workers := workers s; tasks := c;
     router := router s; handoffs := handoffs s; stopCall := stopCall s;
     wl := wl s |}.

Definition set_router (r : RouterPC) (s : State) : State :=
  {| workerPool := workerPool s; workers := workers s; tasks := tasks s;
     router := r; handoffs := handoffs s; stopCall := stopCall s;
     wl := wl s |}.

Definition set_handoffs (hs : list Handoff) (s : State) : State :=
  {| workerPool := workerPool s; workers := workers s; tasks := tasks s;
     router := router s; handoffs := hs; stopCall := stopCall s;
     wl := wl s |}.

Definition set_stopCall (c : StopPC) (s : State) : State :=
  {| workerPool := workerPool s; workers := workers s; tasks := tasks s;
     router := router s; handoffs := handoffs s; stopCall := c;
     wl := wl s |}.

Definition set_wl (x : W) (s : State) : State :=
  {| workerPool := workerPool s; workers := workers s; tasks := tasks s;
     router := router s; handoffs := handoffs s; stopCall := stopCall s;
     wl := x |}.

Definition set_pc (p : WorkerPC) (w : Worker) : Worker :=
  {| ID := ID w; pc := p; wait := wait w |}.

(** [func Start(workers int, wl Workload) Dispatcher], at its return: the
    registry holds 200 channels, the intake 2000 tasks, and the workers'
    goroutines and the routing goroutine have been spawned.  A count
    below one spawns no worker. *)
Definition Start (n : Z) (w0 : W) : State :=
  {| workerPool := make_chan 200;
     tasks := make_chan 2000;
     workers := map NewWorker (seq 0 (Z.to_nat n));
     router := RSelect;
     handoffs := [];
     stopCall := SIdle;
     wl := w0 |}.

(** The stop branch ranges over [d.workers]: worker [i] is next, or the
    goroutine returns. *)
Definition stop_from (i : nat) (s : State) : RouterPC :=
  if i <? length (workers s) then RStopSend i else RDone.

(** One atomic step of one goroutine (two, for a rendezvous). *)
Inductive Action :=
| ADispatch (p : P)     (* Dispatch: d.tasks <- Task{p, d} *)
| ACallStop             (* a caller enters Dispatcher.Stop *)
| AStopRouter           (* d.stopChan <- true meets case <-d.stopChan; Stop returns *)
| ARoute                (* case task := <-d.tasks; go func() {...}() *)
| ATake (g : nat)       (* handoff g: workerQueue := <-d.workerPool *)
| AHand (g : nat)       (* handoff g: workerQueue <- task meets case t := <-w.tasks *)
| AAdd (w : nat)        (* worker w: w.wait.Add(1) *)
| APublish (w : nat)    (* worker w: w.pool <- w.tasks *)
| ADo (w : nat)         (* worker w: w.workload.Do(t), then loops *)
| AStopWorker           (* w.stopChan <- true meets case <-w.stopChan *)
| ADone (w : nat)       (* worker w: w.wait.Done(); return *)
| AWaited.              (* w.wait.Wait() returns; the range loop moves on *)

Definition step (a : Action) (s : State) : option State :=
  match a with
  | ADispatch p =>
      c ← chan_send {| Payload := p |} (tasks s);
      Some (set_tasks c s)
  | ACallStop =>
      match stopCall s with
      | SIdle => Some (set_stopCall SSending s)
      | _ => None
      end
  | AStopRouter =>
      match router s, stopCall s with
      | RSelect, SSending =>
          Some (set_router (stop_from 0 s) (set_stopCall SReturned s))
      | _, _ => None
      end
  | ARoute =>
      match router s with
      | RSelect =>
          '(t, c) ← chan_recv (tasks s);
          Some (set_handoffs (handoffs s ++ [HTake t]) (set_tasks c s))
      | _ => None
      end
  | ATake g =>
      match handoffs s !! g with
      | Some (HTake t) =>
          '(w, c) ← chan_recv (workerPool s);
          Some (set_handoffs (<[g := HSend t w]> (handoffs s))
                  (set_workerPool c s))
      | _ => None
      end
  | AHand g =>
      match handoffs s !! g with
      | Some (HSend t w) =>
          match workers s !! w with
          | Some wk =>
              match pc wk with
              | WSelect =>
                  Some (set_handoffs (delete g (handoffs s))
                          (set_workers (<[w := set_pc (WDo t) wk]> (workers s)) s))
              | _ => None
              end
          | None => None
          end
      | _ => None
      end
  | AAdd w =>
      match workers s !! w with
      | Some wk =>
          match pc wk with
          | WInit =>
              Some (set_workers
                      (<[w := {| ID := ID wk; pc := WPublish; wait := wait wk + 1 |}]>
                         (workers s)) s)
          | _ => None
          end
      | None => None
      end
  | APublish w =>
      match workers s !! w with
      | Some wk =>
          match pc wk with
          | WPublish =>
              c ← chan_send (ID wk) (workerPool s);
              Some (set_workers (<[w := set_pc WSelect wk]> (workers s))
                      (set_workerPool c s))
          | _ => None
          end
      | None => None
      end
  | ADo w =>
      match workers s !! w with
      | Some wk =>
          match pc wk with
          | WDo t =>
              let '(_, x) := Do t (wl s) in
              Some (set_workers (<[w := set_pc WPublish wk]> (workers s))
                      (set_wl x s))
          | _ => None
          end
      | None => None
      end
  | AStopWorker =>
      match router s with
      | RStopSend i =>
          match workers s !! i with
          | Some wk =>
              match pc wk with
              | WSelect =>
                  Some (set_router (RStopWait i)
                          (set_workers (<[i := set_pc WAck wk]> (workers s)) s))
              | _ => None
              end
          | None => None
          end
      | _ => None
      end
  | ADone w =>
      match workers s !! w with
      | Some wk =>
          match pc wk with
          | WAck =>
              Some (set_workers
                      (<[w := {| ID := ID wk; pc := WExited; wait := wait wk - 1 |}]>
                         (workers s)) s)
          | _ => None
          end
      | None => None
      end
  | AWaited =>
      match router s with
      | RStopWait i =>
          match workers s !! i with
          | Some wk =>
              if wait wk =? 0
              then Some (set_router (stop_from (i + 1) s) s)
              else None
          | None => None
          end
      | _ => None
      end
  end.

(** A schedule is a list of actions; it runs as long as each is enabled. *)
Fixpoint run (sched : list Action) (s : State) : option State :=
  match sched with
  | [] => Some s
  | a :: sched' =>
      match step a s with
      | Some s' => run sched' s'
      | None => None
      end
  end.

Definition reachable (s0 s : State) : Prop :=
  exists sched, run sched s0 = Some s.

(** The steps the goroutines of the package take by themselves, as
    opposed to calls made from outside ([Dispatch], [Stop]). *)
Definition internal (a : Action) : bool :=
  match a with
  | ADispatch _ | ACallStop => false
  | _ => true
  end.

(** The payloads a schedule dispatches, in order. *)
Fixpoint dispatched (sched : list Action) : list P :=
  match sched with
  | [] => []
  | ADispatch p :: sched' => p :: dispatched sched'
  | _ :: sched' => dispatched sched'
  end.

Definition exited (w : Worker) : bool :=
  match pc w with WExited => true | _ => false end.

Definition router_live (s : State) : nat :=
  match router s with RDone => 0 | _ => 1 end.

(** The goroutines of the package that are alive: what
    [runtime.NumGoroutine()] counts beyond the callers' own. *)
Definition goroutines (s : State) : nat :=
  length (filter (fun w => exited w = false) (workers s))
  + router_live s + length (handoffs s).

(** Every worker has acknowledged the stop and returned. *)
Definition all_exited (s : State) : bool :=
  forallb exited (workers s).

(** The worker channels that are out of their workers' hands: queued in
    the registry, or taken from it by a handoff goroutine that has not
    yet delivered. *)
Definition held (hs : list Handoff) : list nat :=
  flat_map (fun h => match h with HSend _ w => [w] | HTake _ => [] end) hs.

Definition out (s : State) : list nat :=
  buf (workerPool s) ++ held (handoffs s).

(** A worker that waits at its select, or has left through it. *)
Definition parked (p : WorkerPC) : bool :=
  match p with
  | WSelect | WAck | WExited => true
  | _ => false
  end.

Definition stopped (p : WorkerPC) : bool :=
  match p with
  | WAck | WExited => true
  | _ => false
  end.

(** The tasks that are dispatched and not yet handed to [Do]. *)
Definition handoff_task (h : Handoff) : Task :=
  match h with HTake t => t | HSend t _ => t end.

Definition doing (w : Worker) : list Task :=
  match pc w with WDo t => [t] | _ => [] end.

Definition pending (s : State) : list Task :=
  buf (tasks s) ++ map handoff_task (handoffs s) ++ flat_map doing (workers s).

(** The internal steps that could be enabled in [s]: those of the router
    and one per handoff goroutine and per worker and program point. *)
Definition candidates (s : State) : list Action :=
  [AStopRouter; ARoute; AStopWorker; AWaited]
  ++ flat_map (fun g => [ATake g; AHand g]) (seq 0 (length (handoffs s)))
  ++ flat_map (fun w => [AAdd w; APublish w; ADo w; ADone w])
       (seq 0 (length (workers s))).

Definition blocked (a : Action) (s : State) : bool :=
  match step a s with None => true | Some _ => false end.

(** Drained: no goroutine of the package can take a step. *)
Definition quiescent (s : State) : bool :=
  forallb (fun a => blocked a s) (candidates s).

(** A bound on the internal steps still to come. *)
Definition pc_weight (p : WorkerPC) : nat :=
  match p with
  | WInit => 4
  | WDo _ => 4
  | WPublish => 3
  | WSelect => 2
  | WAck => 1
  | WExited => 0
  end.

Definition handoff_weight (h : Handoff) : nat :=
  match h with HTake _ => 4 | HSend _ _ => 3 end.

Definition router_weight (n : nat) (r : RouterPC) : nat :=
  match r with
  | RSelect => 2 * n + 1
  | RStopSend i => 2 * (n - i)
  | RStopWait i => 2 * (n - i) - 1
  | RDone => 0
  end.

Definition potential (s : State) : nat :=
  5 * length (buf (tasks s))
  + sum_list_with handoff_weight (handoffs s)
  + sum_list_with (fun w => pc_weight (pc w)) (workers s)
  + router_weight (length (workers s)) (router s).

(** *** Invariants of the reachable states *)

(** The workers are those [Start] made, each under its own index, and
    the channels keep their capacities. *)
Definition shape (n : nat) (s : State) : Prop :=
  length (workers s) = n /\
  (forall i wk, workers s !! i = Some wk -> ID wk = i) /\
  cap (workerPool s) = 200 /\ cap (tasks s) = 2000.

(** A worker's channel is out of its hands at most once, only while the
    worker is parked, and always while it waits at its select. *)
Definition pool_ok (ws : list Worker) (o : list nat) : Prop :=
  NoDup o /\
  (forall w, w ∈ o -> exists wk, ws !! w = Some wk /\ parked (pc wk) = true) /\
  (forall w wk, ws !! w = Some wk -> pc wk = WSelect -> w ∈ o).

Definition pool_inv (s : State) : Prop := pool_ok (workers s) (out s).

(** The WaitGroup counter at each program point. *)
Definition wait_of (p : WorkerPC) : nat :=
  match p with WInit | WExited => 0 | _ => 1 end.

Definition exited_below (i : nat) (ws : list Worker) : Prop :=
  forall j wk, j < i -> ws !! j = Some wk -> pc wk = WExited.

(** What the routing goroutine's program point says about the workers. *)
Definition router_ok (r : RouterPC) (ws : list Worker) : Prop :=
  match r with
  | RSelect => forall w wk, ws !! w = Some wk -> stopped (pc wk) = false
  | RStopSend i => i < length ws /\ exited_below i ws
  | RStopWait i =>
      i < length ws /\ exited_below i ws /\
      (forall wk, ws !! i = Some wk -> stopped (pc wk) = true)
  | RDone => exited_below (length ws) ws
  end.

Definition stop_ok (ws : list Worker) (r : RouterPC) (c : StopPC) : Prop :=
  (forall w wk, ws !! w = Some wk -> wait wk = wait_of (pc wk)) /\
  (c = SReturned <-> r <> RSelect) /\
  router_ok r ws.

Definition stop_inv (s : State) : Prop :=
  stop_ok (workers s) (router s) (stopCall s).

Definition inv (n : nat) (s : State) : Prop :=
  shape n s /\ pool_inv s /\ stop_inv s.

(** The steps of a schedule that the goroutines of the package take. *)
Definition work (sched : list Action) : nat :=
  length (List.filter internal sched).

(** The tasks a schedule sends into the intake, in order. *)
Definition sent (sched : list Action) : list Task :=
  map (fun p => {| Payload := p |}) (dispatched sched).

(** A channel holds no more than its capacity. *)
Definition within_caps (s : State) : Prop :=
  length (buf (tasks s)) <= cap (tasks s) /\
  length (buf (workerPool s)) <= cap (workerPool s).

(** The stop branch has not yet reached the workers ahead of it. *)
Definition ahead_ok (r : RouterPC) (ws : list Worker) : Prop :=
  match r with
  | RStopSend i =>
      forall j wk, i <= j -> ws !! j = Some wk -> stopped (pc wk) = false
  | RStopWait i =>
      forall j wk, i < j -> ws !! j = Some wk -> stopped (pc wk) = false
  | RSelect | RDone => True
  end.

Definition ahead_inv (s : State) : Prop := ahead_ok (router s) (workers s).

End Dispatcher.

Arguments Task : clear implicits.
Arguments State : clear implicits.
Arguments Action : clear implicits.
Arguments Workload : clear implicits.

(** *** The workload of [dispatcher_test.go] *)

(** [struct{ URL, SDHash string }] *)
Record TestPayload := { pURL : string; pSDHash : string }.

(** [type testWorkload struct { sync.Mutex; doCalled int; seenTasks []string }] *)
Record testWorkload := { doCalled : nat; seenTasks : list string }.

(** [func (wl *testWorkload) Do(t Task) error], under its mutex. *)
#[export] Instance testWorkload_Do : Workload TestPayload testWorkload := {|
  Do := fun t wl =>
    (None,
     {| doCalled := doCalled wl + 1;
        seenTasks := seenTasks wl
                     ++ [pURL (Payload t) +:+ pSDHash (Payload t)] |})
|}.

Definition seen_as (p : TestPayload) : string := pURL p +:+ pSDHash p.

Definition fresh_workload : testWorkload := {| doCalled := 0; seenTasks := [] |}.

(** The [i]-th payload of a test run. *)
Definition payload (i : nat) : TestPayload :=
  {| pURL := "url" +:+ pretty i; pSDHash := "hash" +:+ pretty i |}.

(** A schedule that starts [n] workers: each adds itself to its wait group
    and publishes its channel. *)
Definition boot (n : nat) : list (Action TestPayload) :=
  flat_map (fun w => [AAdd w; APublish w]) (seq 0 n).

(** A schedule that takes one payload all the way through, when the
    worker at the front of the registry is [w] and no handoff is alive. *)
Definition serve (p : TestPayload) (w : nat) : list (Action TestPayload) :=
  [ADispatch p; ARoute; ATake 0; AHand 0; ADo w; APublish w].

(** [m] payloads served one after the other by [n] workers in turn. *)
Definition serve_all (n m : nat) : list (Action TestPayload) :=
  flat_map (fun i => serve (payload i) (i mod n)) (seq 0 m).

(** Every payload dispatched so far, by the name the workload will see
    it under, wherever it is now. *)
Definition task_name (t : Task TestPayload) : string := seen_as (Payload t).

Definition account (s : State TestPayload testWorkload) : list string :=
  map task_name (buf (tasks s))
  ++ flat_map (fun h => [task_name (handoff_task h)]) (handoffs s)
  ++ flat_map (fun w => map task_name (doing w)) (workers s)
  ++ seenTasks (wl s).

(** [Stop] is called while the first worker is inside [Do]. *)
Definition stop_early : list (Action TestPayload) :=
  boot 20
  ++ [ADispatch (payload 0); ARoute; ATake 0; AHand 0; ACallStop; AStopRouter].


(** 201 workers: 200 have published, the last is about to. *)
Definition crowd : list (Action TestPayload) := boot 200 ++ [AAdd 200].


End dispatcher.

(** ** Package [pkg/mfr]: most-frequently-requested queue

    [mfr.go] is exercised by [mfr_test.go] ([NewQueue], [Hit], [Peek],
    [Pop], [Release], [Fold], [Item.key], [Item.Value], [Item.Hits()],
    [Queue.hits]); the queue below is written from sections 3, 4.1 and 8
    of the specification, read so that the three tests of [mfr_test.go]
    hold of it. *)

Module mfr.

Local Open Scope Z_scope.

Section Queue.

(** [Value interface{}] *)
Context {V : Type}.

(** Modelled from the spec: the popularity entry of [mfr.go], which is
    missing.  Fields [key], [value], [hits] (a 64-bit counter) and the
    [released] flag, the "excluded-from-Pop marker": an entry that
    carries it is passed over by [Pop] and [Peek]. *)
Record Item := { key : string; Value : V; Hits : Z; released : bool }.

(** Modelled from the spec: the queue of [mfr.go], which is missing.  "A
    mapping from key to entry plus an ordered view by hit count": the
    entries are kept in the order of their insertion, at most one per key,
    next to [hits], the queue's own counter of all observed hits. *)
Record Queue := { entries : list Item; hits : Z }.

(** The ordered view: the entries [Pop] and [Peek] choose from. *)
Definition queued (q : Queue) : list Item :=
  List.filter (fun e => negb (released e)) (entries q).

(** Modelled from the spec: [NewQueue] of [mfr.go], which is missing. *)
Definition NewQueue : Queue := {| entries := []; hits := 0 |}.

Definition has_key (k : string) (l : list Item) : bool :=
  existsb (fun e => String.eqb (key e) k) l.

(** One more hit on an entry: the 64-bit counter advances and the
    [released] flag is cleared; the value of the first insertion stays. *)
Definition bump (e : Item) : Item :=
  {| key := key e; Value := Value e;
     Hits := (Hits e + 1) mod 2 ^ 64; released := false |}.

Definition mark_released (e : Item) : Item :=
  {| key := key e; Value := Value e; Hits := Hits e; released := true |}.

Definition requeue (e : Item) : Item :=
  {| key := key e; Value := Value e; Hits := Hits e; released := false |}.

Definition update_key (f : Item -> Item) (k : string) (l : list Item)
  : list Item :=
  map (fun e => if String.eqb (key e) k then f e else e) l.

Definition remove_key (k : string) (l : list Item) : list Item :=
  List.filter (fun e => negb (String.eqb (key e) k)) l.

(** Modelled from the spec: [Hit] of [mfr.go], which is missing.
    "Increments the counter for key.  If absent, inserts {key, value,
    hits=1, released=false}.  If present and released, clears the flag." *)
Definition Hit (k : string) (v : V) (q : Queue) : Queue :=
  {| entries :=
       if has_key k (entries q)
       then update_key bump k (entries q)
       else entries q ++ [{| key := k; Value := v; Hits := 1; released := false |}];
     hits := hits q + 1 |}.

(** The highest-hit entry that is not released; among equal counts the
    entry inserted first ("tie-break ... e.g. insertion-order sequence
    number"). *)
Fixpoint top (l : list Item) : option Item :=
  match l with
  | [] => None
  | e :: l' =>
      if released e then top l'
      else match top l' with
           | Some e' => if (Hits e <? Hits e')%Z then Some e' else Some e
           | None => Some e
           end
  end.

(** Modelled from the spec: [Peek] of [mfr.go], which is missing.
    "Returns the highest-hit non-released entry without removing it, or
    nil if empty." *)
Definition Peek (q : Queue) : option Item := top (entries q).

(** Modelled from the spec: [Pop] of [mfr.go], which is missing.
    "Atomically returns and removes the highest-hit non-released entry,
    or nil if empty"; "Pop does not decrement" the accumulator.  The
    entry leaves the ordered view, so that the next [Pop] returns the
    next entry ([TestPeek]); its key stays in the mapping, marked, until
    [Release] returns it to the view or [Fold] "removes key entirely":
    "After Pop, Release(key), the next Pop returns the same entry"
    (section 8, and [TestRelease]). *)
Definition Pop (q : Queue) : option Item * Queue :=
  match top (entries q) with
  | Some e =>
      (Some e,
       {| entries := update_key mark_released (key e) (entries q);
          hits := hits q |})
  | None => (None, q)
  end.

(** Modelled from the spec: [Release] of [mfr.go], which is missing.
    What the sweeper does with a popped key it wants "retained for
    later": it "re-inserts it (Release, not Fold)" (section 4.4); the
    entry of the key is back in the ordered view, with the hits it had,
    and [TestRelease] pops it again.  (Section 4.1 words [Release] as
    hiding a key; where the two differ the test decides.) *)
Definition Release (k : string) (q : Queue) : Queue :=
  {| entries := update_key requeue k (entries q); hits := hits q |}.

(** Modelled from the spec: [Fold] of [mfr.go], which is missing.
    "Removes key entirely (hits lost)"; the queue's accumulator counts
    [Hit] calls and is left alone. *)
Definition Fold (k : string) (q : Queue) : Queue :=
  {| entries := remove_key k (entries q); hits := hits q |}.


(** The calls a client makes, and a queue driven by a sequence of them
    (the order in which the mutex serialises the producers). *)
Inductive Op :=
| OHit (k : string) (v : V)
| OPeek
| OPop
| ORelease (k : string)
| OFold (k : string).

Definition apply (o : Op) (q : Queue) : Queue :=
  match o with
  | OHit k v => Hit k v q
  | OPeek => q
  | OPop => snd (Pop q)
  | ORelease k => Release k q
  | OFold k => Fold k q
  end.

Definition run (ops : list Op) (q : Queue) : Queue :=
  fold_left (fun q o => apply o q) ops q.

(** Producers only hit and peek. *)
Definition producer_op (o : Op) : bool :=
  match o with
  | OHit _ _ | OPeek => true
  | _ => false
  end.

(** How many times a sequence hits [k]. *)
Fixpoint hits_of (k : string) (ops : list Op) : Z :=
  match ops with
  | [] => 0
  | OHit k' _ :: ops' =>
      (if String.eqb k' k then 1 else 0) + hits_of k ops'
  | _ :: ops' => hits_of k ops'
  end.

(** How many [Hit] calls a sequence makes. *)
Fixpoint total_hits (ops : list Op) : Z :=
  match ops with
  | [] => 0
  | OHit _ _ :: ops' => 1 + total_hits ops'
  | _ :: ops' => total_hits ops'
  end.

(** How many hits go to keys other than those of [us]. *)
Fixpoint hits_elsewhere (us : list string) (ops : list Op) : Z :=
  match ops with
  | [] => 0
  | OHit k _ :: ops' =>
      (if existsb (String.eqb k) us then 0 else 1) + hits_elsewhere us ops'
  | _ :: ops' => hits_elsewhere us ops'
  end.

(** The value passed by the first hit on [k]. *)
Fixpoint first_value (k : string) (ops : list Op) : option V :=
  match ops with
  | [] => None
  | OHit k' v :: ops' =>
      if String.eqb k' k then Some v else first_value k ops'
  | _ :: ops' => first_value k ops'
  end.

(** Of the two keys, [k1] is the one hit first. *)
Fixpoint hit_first (k1 k2 : string) (ops : list Op) : bool :=
  match ops with
  | [] => false
  | OHit k _ :: ops' =>
      if String.eqb k k1 then true
      else if String.eqb k k2 then false
      else hit_first k1 k2 ops'
  | _ :: ops' => hit_first k1 k2 ops'
  end.

(** The shape of the test workload: two keys hit [m] times each, a third
    hit [m3] times, and every other key hit at most once. *)
Definition pinned_workload (u1 u2 u3 : string) (m m3 : Z) (ops : list Op)
  : Prop :=
  forallb producer_op ops = true /\
  u1 <> u2 /\ u1 <> u3 /\ u2 <> u3 /\
  hits_of u1 ops = m /\ hits_of u2 ops = m /\ hits_of u3 ops = m3 /\
  (forall k, k <> u1 -> k <> u2 -> k <> u3 -> hits_of k ops <= 1).

(** The entry of [k] after [ops]: hit [n] times, with the value of its
    first hit. *)
Definition item_for (k : string) (n : Z) (ops : list Op) (e : Item) : Prop :=
  key e = k /\ Hits e = n /\ Some (Value e) = first_value k ops.

(** The count an entry shows after [ops]: a 64-bit counter. *)
Definition score (ops : list Op) (k : string) : Z := hits_of k ops mod 2 ^ 64.

(** [k1] stands in [ks] with no [k2] before it. *)
Definition before (k1 k2 : string) (ks : list string) : Prop :=
  exists pre post, ks = pre ++ k1 :: post /\ ~ In k2 pre.

(** What the entries of a queue are after the producer calls [ops]: one
    entry per key hit, none released, each with the count and the first
    value of its key, in the order of the first hits. *)
Definition tracks (ops : list Op) (l : list Item) : Prop :=
  List.NoDup (map key l) /\
  (forall e, In e l ->
     released e = false /\ Hits e = score ops (key e) /\
     Some (Value e) = first_value (key e) ops /\ 1 <= hits_of (key e) ops) /\
  (forall k, 1 <= hits_of k ops -> has_key k l = true) /\
  (forall k1 k2, k1 <> k2 -> hit_first k1 k2 ops = true ->
     before k1 k2 (map key l)).

End Queue.

Arguments Item : clear implicits.
Arguments Queue : clear implicits.
Arguments Op : clear implicits.

(** *** The test workload, one producer after the other

    The claims of [mfr_test.go] are pairs of a hash and a URL; the key of
    a claim is its URL. *)
Definition claim : Type := string * string.

Definition noise_key (i : N) : string := "n" +:+ pretty i.

(** [n] rounds of [q.Hit(k, c); q.Peek()]. *)
Definition producer (k : string) (c : claim) (n : N) : list (Op claim) :=
  N.iter n (fun l => OHit k c :: OPeek :: l) [].

(** [n] rounds of [q.Peek(); q.Hit(c.url, c)], each with a fresh claim. *)
Definition noise (n : N) : list (Op claim) :=
  N.peano_rect (fun _ => list (Op claim)) []
    (fun i l => l ++ [OPeek; OHit (noise_key i) (pretty i, noise_key i)]) n.

Definition c1 : claim := ("h1", "u1").
Definition c2 : claim := ("h2", "u2").
Definition c3 : claim := ("h3", "u3").

(** The second producer gets the mutex first. *)
Definition second_first : list (Op claim) :=
  producer "u2" c2 10000 ++ producer "u1" c1 10000
  ++ producer "u3" c3 9000 ++ noise 100000.

Definition small_workload : list (Op claim) :=
  [OHit "u1" c1; OPeek; OHit "u2" c2; OHit "u3" c3; OPeek;
   OHit "x" ("hx", "x"); OHit "u2" c2; OHit "u1" c1; OHit "u1" c1;
   OHit "u3" c3; OPeek; OHit "y" ("hy", "y"); OHit "u2" c2].

End mfr.

(** ** Package [client]: fragment cache

    [client.go] is exercised by [client_test.go] ([New], [RestoreCache],
    [getCachedFragment], [fullFragmentPath], [fragmentURL], [sdHashRe]);
    the definitions below are written from section 4.6 of the
    specification. *)

Module client.

Definition error := string.

(** *** The sd-hash pattern *)

Definition is_lower_hex (c : ascii) : bool :=
  let n := nat_of_ascii c in
  ((48 <=? n) && (n <=? 57)) || ((97 <=? n) && (n <=? 102)).

(** Strip [p] from the front of [s]. *)
Fixpoint strip_prefix (p s : string) : option string :=
  match p, s with
  | EmptyString, _ => Some s
  | String a p', String b s' =>
      if Ascii.eqb a b then strip_prefix p' s' else None
  | String _ _, EmptyString => None
  end.

(** Exactly [n] lower-case hex digits from the front of [s]: the digits
    and what follows them. *)
Fixpoint take_hex (n : nat) (s : string) : option (string * string) :=
  match n with
  | 0 => Some (EmptyString, s)
  | S n' =>
      match s with
      | String c s' =>
          if is_lower_hex c
          then match take_hex n' s' with
               | Some (h, rest) => Some (String c h, rest)
               | None => None
               end
          else None
      | EmptyString => None
      end
  end.

(** The pattern [/streams/([0-9a-f]{96})/] matched at the front of [s]:
    the captured group. *)
Definition match_here (s : string) : option string :=
  match strip_prefix "/streams/" s with
  | Some s1 =>
      match take_hex 96 s1 with
      | Some (h, String "/" _) => Some h
      | _ => None
      end
  | None => None
  end.

(** Modelled from the spec: [sdHashRe] of [client.go], which is missing
    ("Sd-hash regex: /streams/([0-9a-f]{96})/, case-sensitive lowercase
    hex"): the group of the leftmost match, as [FindStringSubmatch]
    returns it in [m[1]]. *)
Fixpoint sdHashRe (s : string) : option string :=
  match match_here s with
  | Some h => Some h
  | None =>
      match s with
      | String _ s' => sdHashRe s'
      | EmptyString => None
      end
  end.

(** [needle] occurs in [s]. *)
Fixpoint contains (needle s : string) : bool :=
  match strip_prefix needle s with
  | Some _ => true
  | None =>
      match s with
      | String _ s' => contains needle s'
      | EmptyString => false
      end
  end.

Definition is_sd_hash (h : string) : bool :=
  (String.length h =? 96) && forallb is_lower_hex (list_ascii_of_string h).

(** *** The cache *)

(** Modelled from the spec: the fragment cache entry of [client.go], which
    is missing.  Identity is [(sdHash, name)]; the bytes are the file
    [<root>/<sdHash>/<name>]. *)
Record Fragment := { sdHash : string; name : string; fsize : Z }.

Definition Size (f : Fragment) : Z := fsize f.

(** Modelled from the spec: [Client] of [client.go], which is missing: the
    configured server and video path, and the index of cached fragments. *)
Record Client := {
  server : string;
  videoPath : string;
  cache : gmap (string * string) Fragment
}.

(** Modelled from the spec: [New(Configure().Server(s).VideoPath(p))] of
    [client.go], which is missing. *)
Definition New (s p : string) : Client :=
  {| server := s; videoPath := p; cache := ∅ |}.

(** The directory tree under the video path: each directory, named by an
    sd hash, holds regular files with their sizes in bytes. *)
Abbreviation Disk := (gmap string (gmap string Z)).

(** [os.Stat(path.Join(root, h, n)).Size()] *)
Definition stat_size (d : Disk) (h n : string) : option Z :=
  files ← d !! h; files !! n.

(** The walk of [<root>/<sdHash>/*]: every file of every directory. *)
Definition walk (d : Disk) : list Fragment :=
  '(h, files) ← map_to_list d;
  '(n, sz) ← map_to_list files;
  [{| sdHash := h; name := n; fsize := sz |}].

Definition register (c : Client) (f : Fragment) : Client :=
  {| server := server c; videoPath := videoPath c;
     cache := <[(sdHash f, name f) := f]> (cache c) |}.

(** Modelled from the spec: [RestoreCache] of [client.go], which is
    missing.  "Walks <root>/<sdHash>/*, registers each file as an entry
    with its disk size, and returns the total count." *)
Definition RestoreCache (c : Client) (d : Disk) : Z * option error * Client :=
  let fs := walk d in
  (Z.of_nat (length fs), None, foldl register c fs).

(** The files a tree holds, directory by directory. *)
Definition file_count (d : Disk) : nat :=
  sum_list_with (fun hf => size (snd hf)) (map_to_list d).

Section Upstream.

(** What the server answers when asked for the stream [url]: the URL of
    its playlist, which embeds the sd hash of the stream as the server
    knows it.  A [url] that is a playlist URL already answers itself. *)
Variable playlist : string -> string.

(** Fetching a fragment that is not cached; how is not specified. *)
Variable fetch : Client -> string -> string -> string
                 -> option Fragment * option error.

(** Modelled from the spec: [fragmentURL] of [client.go], which is
    missing.  "Composes the upstream fragment URL, but first validates
    that the sdHash matches the one parsable from url using the canonical
    regex pattern.  Mismatch yields an error whose message contains the
    literal [remote sd hash mismatch]"; "with matching 96-hex hashes,
    returns <server>/streams/<hash>/<name>". *)
Definition fragmentURL (c : Client) (url sdHash name : string)
  : string * option error :=
  match sdHashRe (playlist url) with
  | Some h =>
      if String.eqb h sdHash
      then (server c +:+ "/streams/" +:+ sdHash +:+ "/" +:+ name, None)
      else ("", Some "remote sd hash mismatch")
  | None => ("", Some "remote sd hash mismatch")
  end.

(** Modelled from the spec: [getCachedFragment] of [client.go], which is
    missing.  "Returns the entry and hit=true when the (sdHash, name)
    tuple is indexed"; a miss goes upstream. *)
Definition getCachedFragment (c : Client) (url sdHash name : string)
  : option Fragment * bool * option error :=
  match cache c !! (sdHash, name) with
  | Some f => (Some f, true, None)
  | None => let '(f, err) := fetch c url sdHash name in (f, false, err)
  end.

End Upstream.

(** *** Fixtures of [client_test.go] *)

Definition test_server : string := "http://t0.lbry.tv:18081".

Definition vanquish : string :=
  "vanquish-trailer-(2021)-morgan-freeman,#b7b150d1bbca4650ad4ab921dd8d424bf77c1141".

Definition vanquish_hash : string :=
  "bec50ab288153ed03b0eb8dafd814daf19a187e07f8da4ad91cf778f5c39ac74d9d92ad6e3ebf2ddb6b7acea3cb8893a".

Definition other_hash : string :=
  "0b8dfc049b2165fad5829aca24f2ddfae3acef8d73bc5e04ff8b932fce9fc463dc6cf3e638413f04536638d2e7218427".

(** The server knows the one stream. *)
Definition test_playlist (url : string) : string :=
  if String.eqb url vanquish
  then test_server +:+ "/streams/" +:+ vanquish_hash +:+ "/master.m3u8"
  else test_server +:+ "/api/v2/video/" +:+ url.

Definition no_fetch (c : Client) (url h n : string)
  : option Fragment * option error :=
  (None, Some "not cached").

(** A stream directory of [f] fragments of 10000 bytes each. *)
Definition stream_dir (f : nat) : gmap string Z :=
  list_to_map ((fun i => ("seg" +:+ pretty i +:+ ".ts", 10000%Z)) <$> seq 0 f).

(** [n] stream directories of [f] fragments each. *)
Definition populated (n f : nat) : Disk :=
  list_to_map ((fun i => ("stream" +:+ pretty i, stream_dir f)) <$> seq 0 n).

End client.

(** * Properties *)

(** ** The library: [Furlough] and [Retire] *)

Section VideoProperties.

Import video.

Context {L R D : Type}.
Context {local : LocalDriver L} {remote : RemoteDriver R}.

Lemma Furlough_unfold (queries : Queries D) (v : Video) (w : World L R D) :
  forall r l' r2 d',
    local_Delete (SDHash v) (w_local w) = (r, l') ->
    queries_UpdatePath ctx5 (SDHash v) "" (w_db w) = (r2, d') ->
    returned (Furlough v w) = match r with Some e => Some e | None => r2 end /\
    world_after (Furlough v w) =
      {| w_local := l'; w_remote := w_remote w;
         w_db := match r with Some _ => w_db w | None => d' end |} /\
    calls_made (Furlough v w) =
      (LocalDelete (SDHash v), r) ::
      match r with
      | Some _ => []
      | None => [(QueriesUpdatePath ctx5 (SDHash v) "", r2)]
      end.
Proof.
  intros r l' r2 d' Hl Hq.
  unfold returned, world_after, calls_made, Furlough, bind, do_local_Delete,
    do_UpdatePath, emit, ret.
  fold ctx5. rewrite Hl. destruct r as [e|]; simpl.
  - auto.
  - rewrite Hq. destruct r2; simpl; auto.
Qed.

Lemma Retire_unfold (queries : Queries D) (v : Video) (w : World L R D) :
  forall r m' r2 d',
    remote_Delete (SDHash v) (w_remote w) = (r, m') ->
    queries_Delete ctx5 (SDHash v) (w_db w) = (r2, d') ->
    returned (Retire v w) = match r with Some e => Some e | None => r2 end /\
    world_after (Retire v w) =
      {| w_local := w_local w; w_remote := m';
         w_db := match r with Some _ => w_db w | None => d' end |} /\
    calls_made (Retire v w) =
      (RemoteDelete (SDHash v), r) ::
      match r with
      | Some _ => []
      | None => [(QueriesDelete ctx5 (SDHash v), r2)]
      end.
Proof.
  intros r m' r2 d' Hl Hq.
  unfold returned, world_after, calls_made, Retire, bind, do_remote_Delete,
    do_queries_Delete, emit, ret.
  fold ctx5. rewrite Hl. destruct r as [e|]; simpl.
  - auto.
  - rewrite Hq. destruct r2; simpl; auto.
Qed.

(** C7.  [Furlough] calls [local.Delete(v.SDHash)] first and
    [queries.UpdatePath] with the empty path second, on the world the
    deletion left; [Retire] calls [remote.Delete(v.SDHash)] first and
    [queries.Delete] second.  When the deletion of the bytes fails, the
    operation returns that very error, no metadata call is made and the
    records are those it started with. *)
Theorem Furlough_Retire_bytes_then_record
  (queries : Queries D) (v : Video) (w : World L R D) :
  (forall e l',
      local_Delete (SDHash v) (w_local w) = (Some e, l') ->
      returned (Furlough v w) = Some e /\
      w_db (world_after (Furlough v w)) = w_db w /\
      calls_made (Furlough v w) = [(LocalDelete (SDHash v), Some e)]) /\
  (forall l',
      local_Delete (SDHash v) (w_local w) = (None, l') ->
      let '(r, d') := queries_UpdatePath ctx5 (SDHash v) "" (w_db w) in
      returned (Furlough v w) = r /\
      world_after (Furlough v w) =
        {| w_local := l'; w_remote := w_remote w; w_db := d' |} /\
      calls_made (Furlough v w) =
        [(LocalDelete (SDHash v), None);
         (QueriesUpdatePath ctx5 (SDHash v) "", r)]) /\
  (forall e m',
      remote_Delete (SDHash v) (w_remote w) = (Some e, m') ->
      returned (Retire v w) = Some e /\
      w_db (world_after (Retire v w)) = w_db w /\
      calls_made (Retire v w) = [(RemoteDelete (SDHash v), Some e)]) /\
  (forall m',
      remote_Delete (SDHash v) (w_remote w) = (None, m') ->
      let '(r, d') := queries_Delete ctx5 (SDHash v) (w_db w) in
      returned (Retire v w) = r /\
      world_after (Retire v w) =
        {| w_local := w_local w; w_remote := m'; w_db := d' |} /\
      calls_made (Retire v w) =
        [(RemoteDelete (SDHash v), None);
         (QueriesDelete ctx5 (SDHash v), r)]).
Proof.
  repeat split.
  - destruct (queries_UpdatePath ctx5 (SDHash v) "" (w_db w)) as [r2 d'] eqn:Hq.
    apply (Furlough_unfold queries v w _ _ _ _ H Hq).
  - destruct (queries_UpdatePath ctx5 (SDHash v) "" (w_db w)) as [r2 d'] eqn:Hq.
    destruct (Furlough_unfold queries v w _ _ _ _ H Hq) as (_ & -> & _).
    reflexivity.
  - destruct (queries_UpdatePath ctx5 (SDHash v) "" (w_db w)) as [r2 d'] eqn:Hq.
    apply (Furlough_unfold queries v w _ _ _ _ H Hq).
  - intros l' H.
    destruct (queries_UpdatePath ctx5 (SDHash v) "" (w_db w)) as [r2 d'] eqn:Hq.
    apply (Furlough_unfold queries v w _ _ _ _ H Hq).
  - destruct (queries_Delete ctx5 (SDHash v) (w_db w)) as [r2 d'] eqn:Hq.
    apply (Retire_unfold queries v w _ _ _ _ H Hq).
  - destruct (queries_Delete ctx5 (SDHash v) (w_db w)) as [r2 d'] eqn:Hq.
    destruct (Retire_unfold queries v w _ _ _ _ H Hq) as (_ & -> & _).
    reflexivity.
  - destruct (queries_Delete ctx5 (SDHash v) (w_db w)) as [r2 d'] eqn:Hq.
    apply (Retire_unfold queries v w _ _ _ _ H Hq).
  - intros m' H.
    destruct (queries_Delete ctx5 (SDHash v) (w_db w)) as [r2 d'] eqn:Hq.
    apply (Retire_unfold queries v w _ _ _ _ H Hq).
Qed.

Lemma Furlough_bytes_failed (Q1 Q2 : Queries D) (v : Video) (w : World L R D) :
  fst (local_Delete (SDHash v) (w_local w)) <> None ->
  Furlough (queries := Q1) v w = Furlough (queries := Q2) v w.
Proof.
  intros H. unfold Furlough, bind, do_local_Delete, emit, ret.
  destruct (local_Delete (SDHash v) (w_local w)) as [[e|] l']; simpl in *.
  - reflexivity.
  - congruence.
Qed.

Lemma Retire_bytes_failed (Q1 Q2 : Queries D) (v : Video) (w : World L R D) :
  fst (remote_Delete (SDHash v) (w_remote w)) <> None ->
  Retire (queries := Q1) v w = Retire (queries := Q2) v w.
Proof.
  intros H. unfold Retire, bind, do_remote_Delete, emit, ret.
  destruct (remote_Delete (SDHash v) (w_remote w)) as [[e|] m']; simpl in *.
  - reflexivity.
  - congruence.
Qed.

Lemma Furlough_calls_context (queries : Queries D) (v : Video) (w : World L R D) :
  forall c r, In (c, r) (calls_made (Furlough v w)) ->
    call_context c = if is_metadata_call c then Some ctx5 else None.
Proof.
  intros c r.
  destruct (local_Delete (SDHash v) (w_local w)) as [r1 l'] eqn:Hl.
  destruct (queries_UpdatePath ctx5 (SDHash v) "" (w_db w)) as [r2 d'] eqn:Hq.
  destruct (Furlough_unfold queries v w _ _ _ _ Hl Hq) as (_ & _ & ->).
  destruct r1; simpl; intros H;
    repeat (destruct H as [H|H]; [inversion H; subst; reflexivity|]);
    destruct H.
Qed.

Lemma Retire_calls_context (queries : Queries D) (v : Video) (w : World L R D) :
  forall c r, In (c, r) (calls_made (Retire v w)) ->
    call_context c = if is_metadata_call c then Some ctx5 else None.
Proof.
  intros c r.
  destruct (remote_Delete (SDHash v) (w_remote w)) as [r1 l'] eqn:Hl.
  destruct (queries_Delete ctx5 (SDHash v) (w_db w)) as [r2 d'] eqn:Hq.
  destruct (Retire_unfold queries v w _ _ _ _ Hl Hq) as (_ & _ & ->).
  destruct r1; simpl; intros H;
    repeat (destruct H as [H|H]; [inversion H; subst; reflexivity|]);
    destruct H.
Qed.

(** C10.  The context [Furlough] and [Retire] build allows five seconds
    and is handed to the metadata call alone: every call they make
    carries that context if it is a [queries] call and none if it is a
    [Delete] of bytes.  So the deadline plays no part in the deletion of
    the bytes: when that step fails, the operation ends the same whatever
    the database does; and whenever a database that ignores deadlines
    would have made the operation end differently, the bytes had been
    deleted without error and what the operation returns is what the
    metadata call returned. *)
Theorem deadline_reaches_metadata_only
  (queries : Queries D) (v : Video) (w : World L R D) :
  allowance ctx5 = Some 5000000000%Z /\
  (forall c r,
      In (c, r) (calls_made (Furlough v w) ++ calls_made (Retire v w)) ->
      call_context c = if is_metadata_call c then Some ctx5 else None) /\
  (forall Q' : Queries D,
      (fst (local_Delete (SDHash v) (w_local w)) <> None ->
       Furlough (queries := Q') v w = Furlough v w) /\
      (fst (remote_Delete (SDHash v) (w_remote w)) <> None ->
       Retire (queries := Q') v w = Retire v w)) /\
  (Furlough (queries := deadline_blind queries) v w <> Furlough v w ->
   fst (local_Delete (SDHash v) (w_local w)) = None /\
   returned (Furlough v w)
   = fst (queries_UpdatePath ctx5 (SDHash v) "" (w_db w))) /\
  (Retire (queries := deadline_blind queries) v w <> Retire v w ->
   fst (remote_Delete (SDHash v) (w_remote w)) = None /\
   returned (Retire v w)
   = fst (queries_Delete ctx5 (SDHash v) (w_db w))).
Proof.
  split; [reflexivity|].
  split.
  { intros c r H. apply in_app_or in H as [H|H].
    - eapply Furlough_calls_context; eauto.
    - eapply Retire_calls_context; eauto. }
  split.
  { intros Q'. split; intros H.
    - apply Furlough_bytes_failed; assumption.
    - apply Retire_bytes_failed; assumption. }
  split.
  - intros Hdiff.
    destruct (local_Delete (SDHash v) (w_local w)) as [r1 l'] eqn:Hl.
    destruct (queries_UpdatePath ctx5 (SDHash v) "" (w_db w)) as [r2 d'] eqn:Hq.
    destruct r1 as [e|].
    + exfalso. apply Hdiff. apply Furlough_bytes_failed.
      rewrite Hl. discriminate.
    + split; [reflexivity|].
      destruct (Furlough_unfold queries v w _ _ _ _ Hl Hq) as (-> & _).
      reflexivity.
  - intros Hdiff.
    destruct (remote_Delete (SDHash v) (w_remote w)) as [r1 l'] eqn:Hl.
    destruct (queries_Delete ctx5 (SDHash v) (w_db w)) as [r2 d'] eqn:Hq.
    destruct r1 as [e|].
    + exfalso. apply Hdiff. apply Retire_bytes_failed.
      rewrite Hl. discriminate.
    + split; [reflexivity|].
      destruct (Retire_unfold queries v w _ _ _ _ Hl Hq) as (-> & _).
      reflexivity.
Qed.

End VideoProperties.

Section VideoExamples.

Import video.

(** The library run on maps: a failed deletion of the bytes leaves the
    record alone, a successful one is followed by the update. *)
Example Furlough_absent_bytes :
  Furlough sample_video bare_world
  = (Some "local: no such object", bare_world,
     [ECall (LocalDelete "abc") (Some "local: no such object");
      ELog Warn "failed to delete local video";
      ECancel ctx5]).
Proof. reflexivity. Qed.

Example Furlough_present_bytes :
  returned (Furlough sample_video sample_world) = None /\
  w_db (world_after
                (Furlough sample_video sample_world))
    !! "abc" = Some "" /\
  calls_made (Furlough sample_video sample_world)
  = [(LocalDelete "abc", None);
     (QueriesUpdatePath ctx5 "abc" "", None)].
Proof. repeat split; vm_compute; reflexivity. Qed.

(** No local bytes to delete: the record keeps its path. *)
Lemma Furlough_Retire_bytes_then_record_witness :
  returned (Furlough sample_video bare_world)
  = Some "local: no such object" /\
  w_db (world_after
                (Furlough sample_video bare_world))
  = w_db bare_world.
Proof.
  pose proof (Furlough_Retire_bytes_then_record
                map_queries sample_video bare_world)
    as (H & _).
  destruct (H "local: no such object" ∅) as (H1 & H2 & _).
  - reflexivity.
  - split; assumption.
Defined.

(** A database that cannot meet any deadline: the bytes go, the update
    reports the deadline. *)
Lemma deadline_reaches_metadata_only_witness :
  fst (local_Delete "abc" (w_local sample_world)) = None /\
  returned (Furlough (queries := stalled_queries)
                    sample_video sample_world)
  = Some "context deadline exceeded".
Proof.
  pose proof (deadline_reaches_metadata_only
                stalled_queries sample_video sample_world)
    as (_ & _ & _ & H & _).
  destruct H as [H1 H2].
  - intros E.
    apply (f_equal (fun x => returned x)) in E.
    vm_compute in E. discriminate E.
  - split; [exact H1|]. rewrite H2. reflexivity.
Defined.

End VideoExamples.

(** *** What the two operations leave alone, and what they log *)

Section VideoMore.

Import video.

Context {L R D : Type}.
Context {local : LocalDriver L} {remote : RemoteDriver R}.

(** X10.  [Furlough] never touches the remote store and [Retire] never
    touches the local one, whatever the drivers do; and each returns
    nil exactly when both its calls, the deletion of the bytes and the
    metadata query, returned nil. *)
Theorem other_tier_untouched (queries : Queries D) (v : Video) (w : World L R D) :
  w_remote (world_after (Furlough v w)) = w_remote w /\
  w_local (world_after (Retire v w)) = w_local w /\
  (returned (Furlough v w) = None <->
   fst (local_Delete (SDHash v) (w_local w)) = None /\
   fst (queries_UpdatePath ctx5 (SDHash v) "" (w_db w)) = None) /\
  (returned (Retire v w) = None <->
   fst (remote_Delete (SDHash v) (w_remote w)) = None /\
   fst (queries_Delete ctx5 (SDHash v) (w_db w)) = None).
Proof.
  destruct (local_Delete (SDHash v) (w_local w)) as [r1 l'] eqn:Hl.
  destruct (queries_UpdatePath ctx5 (SDHash v) "" (w_db w)) as [r2 d'] eqn:Hq.
  destruct (remote_Delete (SDHash v) (w_remote w)) as [r3 m'] eqn:Hr.
  destruct (queries_Delete ctx5 (SDHash v) (w_db w)) as [r4 d''] eqn:Hd.
  destruct (Furlough_unfold queries v w _ _ _ _ Hl Hq) as (-> & -> & _).
  destruct (Retire_unfold queries v w _ _ _ _ Hr Hd) as (-> & -> & _).
  simpl. repeat split; try tauto.
  - destruct r1; [discriminate|reflexivity].
  - destruct r1; [discriminate|tauto].
  - intros [-> ->]. reflexivity.
  - destruct r3; [discriminate|reflexivity].
  - destruct r3; [discriminate|tauto].
  - intros [-> ->]. reflexivity.
Qed.

(** X11.  Every call of [Furlough] and of [Retire] writes one log line,
    at level Info when it returns nil and Warn when it returns an
    error, and cancels its context exactly once, as the last thing it
    does, on every return path. *)
Theorem one_log_then_cancel (queries : Queries D) (v : Video) (w : World L R D) :
  (logs (snd (Furlough v w))
   = [match returned (Furlough v w) with None => Info | Some _ => Warn end] /\
   cancels (snd (Furlough v w)) = [ctx5] /\
   exists tr, snd (Furlough v w) = tr ++ [ECancel ctx5]) /\
  (logs (snd (Retire v w))
   = [match returned (Retire v w) with None => Info | Some _ => Warn end] /\
   cancels (snd (Retire v w)) = [ctx5] /\
   exists tr, snd (Retire v w) = tr ++ [ECancel ctx5]).
Proof.
  unfold returned, Furlough, Retire, bind, do_local_Delete, do_remote_Delete,
    do_UpdatePath, do_queries_Delete, emit, ret. fold ctx5.
  destruct (local_Delete (SDHash v) (w_local w)) as [[e1|] l'];
    destruct (remote_Delete (SDHash v) (w_remote w)) as [[e3|] m']; simpl;
    try destruct (queries_UpdatePath ctx5 (SDHash v) "" (w_db w)) as [[e2|] d'];
    try destruct (queries_Delete ctx5 (SDHash v) (w_db w)) as [[e4|] d'']; simpl;
    repeat split;
    first [ eexists [_; _]; reflexivity | eexists [_; _; _]; reflexivity ].
Qed.

End VideoMore.

(** ** The dispatcher *)

(** Case analysis on an enabled step. *)
Ltac inv_step H :=
  unfold dispatcher.step, dispatcher.chan_send, dispatcher.chan_recv in H;
  repeat match type of H with
  | context [match ?x with _ => _ end] => destruct x eqn:? ; simplify_eq/=
  | context [mbind _ ?x] => destruct x eqn:?; simplify_eq/=
  end.

(** General facts on lists updated at one index. *)
Section ListAt.
Context {A B : Type}.
Implicit Types (l : list A) (f : A -> list B) (g : A -> nat).

Lemma flat_map_insert_perm f l i x y :
  l !! i = Some x ->
  flat_map f (<[i := y]> l) ++ f x ≡ₚ flat_map f l ++ f y.
Proof.
  intros H. rewrite <- (take_drop_middle l i x H) at 2.
  rewrite insert_take_drop by (eapply lookup_lt_Some; eauto).
  rewrite !flat_map_app. simpl. rewrite <- !app_assoc.
  apply Permutation_app_head.
  rewrite (Permutation_app_comm (f y)), <- app_assoc.
  symmetry. apply Permutation_app_swap_app.
Qed.

Lemma flat_map_delete_perm f l i x :
  l !! i = Some x ->
  flat_map f l ≡ₚ f x ++ flat_map f (delete i l).
Proof.
  intros H. rewrite <- (take_drop_middle l i x H) at 1.
  rewrite delete_take_drop, !flat_map_app. simpl.
  rewrite !app_assoc. apply Permutation_app_tail, Permutation_app_comm.
Qed.

Lemma sum_map_insert g l i x y :
  l !! i = Some x ->
  sum_list_with g (<[i := y]> l) + g x = sum_list_with g l + g y.
Proof.
  intros H. rewrite <- (take_drop_middle l i x H) at 2.
  rewrite insert_take_drop by (eapply lookup_lt_Some; eauto).
  rewrite !sum_list_with_app. simpl. lia.
Qed.

Lemma sum_map_delete g l i x :
  l !! i = Some x ->
  sum_list_with g l = g x + sum_list_with g (delete i l).
Proof.
  intros H. rewrite <- (take_drop_middle l i x H) at 1.
  rewrite delete_take_drop, !sum_list_with_app. simpl. lia.
Qed.

Lemma length_filter_insert (q : A -> bool) l i x y :
  l !! i = Some x -> q x = q y ->
  length (filter (fun a => q a = false) (<[i := y]> l))
  = length (filter (fun a => q a = false) l).
Proof.
  intros H Hq. rewrite <- (take_drop_middle l i x H) at 2.
  rewrite insert_take_drop by (eapply lookup_lt_Some; eauto).
  rewrite !filter_app, !filter_cons, !length_app.
  rewrite Hq. destruct (decide (q y = false)); reflexivity.
Qed.

Lemma flat_map_all_nil f l :
  (forall i x, l !! i = Some x -> f x = []) -> flat_map f l = [].
Proof.
  induction l as [|x l IH]; intros H; [reflexivity|]. simpl.
  rewrite (H 0 x eq_refl). apply IH. intros i y Hy. apply (H (S i) y Hy).
Qed.

End ListAt.

Lemma NoDup_bounded_length (l : list nat) (n w : nat) :
  NoDup l -> (forall x, x ∈ l -> x < n) -> w < n -> w ∉ l -> length l < n.
Proof.
  intros Hnd Hb Hw Hni.
  assert (H : length (w :: l) <= length (seq 0 n)).
  { apply NoDup_incl_length.
    - apply NoDup_ListNoDup. constructor; assumption.
    - intros x [<-|Hx]; apply in_seq; split; try lia.
      apply Hb. apply list_elem_of_In. exact Hx. }
  rewrite length_seq in H. simpl in H. lia.
Qed.

Section DispatcherProperties.

Import dispatcher.

Context {P W : Type} {workload : Workload P W}.
Implicit Types (s : State P W) (a : Action P) (ws : list (@Worker P)).

Lemma run_app (l1 l2 : list (Action P)) s :
  run (l1 ++ l2) s = match run l1 s with Some s1 => run l2 s1 | None => None end.
Proof.
  revert s. induction l1 as [|a l1 IH]; intros s; simpl.
  - reflexivity.
  - destruct (step a s); auto.
Qed.

Lemma run_invariant (I : State P W -> Prop) :
  (forall a s s', I s -> step a s = Some s' -> I s') ->
  forall sched s s', I s -> run sched s = Some s' -> I s'.
Proof.
  intros Hstep sched. induction sched as [|a sched IH]; intros s s' Hs Hr.
  - simpl in Hr. congruence.
  - simpl in Hr. destruct (step a s) as [s1|] eqn:E; [|discriminate].
    eapply IH; [|exact Hr]. eapply Hstep; eauto.
Qed.

Lemma step_shape n a s s' : shape n s -> step a s = Some s' -> shape n s'.
Proof.
  intros (Hl & Hid & Hc1 & Hc2) H.
  destruct a; inv_step H.
  all: split; [|split; [|split]]; simpl; try assumption; try reflexivity.
  all: try apply length_insert.
  all: intros j wk' [(-> & <- & _)|(? & ?)]%list_lookup_insert_Some;
    simpl; eauto.
Qed.

Lemma Start_shape (n : Z) (w0 : W) :
  shape (Z.to_nat n) (Start (P := P) n w0).
Proof.
  unfold shape, Start. simpl. rewrite length_map, length_seq.
  repeat split.
  intros i wk H. apply list_lookup_fmap_Some in H as (j & -> & H).
  apply lookup_seq in H as [-> _]. reflexivity.
Qed.

(** *** The registry and the handoff *)
Lemma pool_ok_perm ws o o' : o ≡ₚ o' -> pool_ok ws o -> pool_ok ws o'.
Proof.
  intros Hp (Hnd & H5 & H6). split; [|split].
  - rewrite <- Hp. exact Hnd.
  - intros w Hw. apply H5. rewrite Hp. exact Hw.
  - intros w wk Hw Hs. rewrite <- Hp. eauto.
Qed.

Lemma pool_ok_update ws o w wk wk' :
  ws !! w = Some wk ->
  parked (pc wk') = parked (pc wk) ->
  (pc wk' = WSelect -> pc wk = WSelect) ->
  pool_ok ws o -> pool_ok (<[w := wk']> ws) o.
Proof.
  intros Hw Hp Hsel (Hnd & H5 & H6). split; [exact Hnd|split].
  - intros x Hx. destruct (H5 x Hx) as (xk & Hxk & Hpx).
    destruct (decide (x = w)) as [->|Hne].
    + exists wk'. split.
      * apply list_lookup_insert_eq. eapply lookup_lt_Some; eauto.
      * rewrite Hp. congruence.
    + exists xk. rewrite list_lookup_insert_ne by congruence. auto.
  - intros x xk [(-> & <- & _)|(? & ?)]%list_lookup_insert_Some Hs; eauto.
Qed.

Lemma pool_ok_publish ws o w wk wk' :
  ws !! w = Some wk ->
  parked (pc wk) = false ->
  pc wk' = WSelect ->
  pool_ok ws o -> pool_ok (<[w := wk']> ws) (w :: o).
Proof.
  intros Hw Hp Hsel (Hnd & H5 & H6). split; [|split].
  - constructor; [|exact Hnd].
    intros Hin. destruct (H5 w Hin) as (xk & Hxk & Hpx). congruence.
  - intros x Hx. destruct (decide (x = w)) as [->|Hne].
    + exists wk'. split.
      * apply list_lookup_insert_eq. eapply lookup_lt_Some; eauto.
      * rewrite Hsel. reflexivity.
    + apply elem_of_cons in Hx as [?|Hx]; [congruence|].
      destruct (H5 x Hx) as (xk & Hxk & Hpx).
      exists xk. rewrite list_lookup_insert_ne by congruence. auto.
  - intros x xk [(-> & <- & _)|(? & ?)]%list_lookup_insert_Some Hs.
    + left.
    + right. eauto.
Qed.

Lemma pool_ok_hand ws o w wk wk' :
  ws !! w = Some wk ->
  parked (pc wk') = false ->
  pool_ok ws (w :: o) -> pool_ok (<[w := wk']> ws) o.
Proof.
  intros Hw Hp (Hnd & H5 & H6). apply NoDup_cons in Hnd as [Hni Hnd].
  split; [exact Hnd|split].
  - intros x Hx. destruct (decide (x = w)) as [->|Hne]; [contradiction|].
    destruct (H5 x) as (xk & Hxk & Hpx); [right; exact Hx|].
    exists xk. rewrite list_lookup_insert_ne by congruence. auto.
  - intros x xk [(-> & <- & _)|(? & ?)]%list_lookup_insert_Some Hs.
    + rewrite Hs in Hp. discriminate.
    + specialize (H6 x xk H0 Hs). apply elem_of_cons in H6 as [?|?]; congruence.
Qed.

Lemma held_insert (hs : list (@Handoff P)) g t w :
  hs !! g = Some (HTake t) ->
  held (<[g := HSend t w]> hs) ≡ₚ w :: held hs.
Proof.
  intros H. unfold held.
  pose proof (flat_map_insert_perm
                (fun h : @Handoff P => match h with HSend _ w => [w] | HTake _ => [] end)
                hs g _ (HSend t w) H) as Hp.
  simpl in Hp. rewrite app_nil_r in Hp. rewrite Hp.
  symmetry. apply Permutation_cons_append.
Qed.

Lemma held_delete (hs : list (@Handoff P)) g t w :
  hs !! g = Some (HSend t w) ->
  held hs ≡ₚ w :: held (delete g hs).
Proof.
  intros H. unfold held.
  rewrite (flat_map_delete_perm _ hs g _ H). reflexivity.
Qed.

Lemma step_pool n a s s' :
  shape n s -> pool_inv s -> step a s = Some s' -> pool_inv s'.
Proof.
  intros (Hl & Hid & Hc1 & Hc2) HI H. unfold pool_inv, out in *.
  destruct a; inv_step H; try exact HI.
  - (* ARoute *)
    unfold held in *. rewrite flat_map_app. simpl. rewrite app_nil_r. exact HI.
  - (* ATake *)
    eapply pool_ok_perm; [|exact HI]. simpl.
    rewrite held_insert by eassumption. apply Permutation_middle.
  - (* AHand *)
    eapply pool_ok_hand; eauto.
    eapply pool_ok_perm; [|exact HI].
    rewrite (held_delete _ _ _ _ Heqo). symmetry. apply Permutation_middle.
  - (* AAdd *)
    eapply pool_ok_update; eauto; simpl; rewrite ?Heqw1; try reflexivity; discriminate.
  - (* APublish *)
    eapply pool_ok_perm; [|eapply pool_ok_publish; eauto].
    + rewrite (Hid _ _ Heqo), <- app_assoc. simpl.
      apply Permutation_middle.
    + rewrite Heqw1. reflexivity.
  - (* ADo *)
    eapply pool_ok_update; eauto; simpl; rewrite ?Heqw1; try reflexivity; discriminate.
  - (* AStopWorker *)
    eapply pool_ok_update; eauto; simpl; rewrite ?Heqw0; try reflexivity; discriminate.
  - (* ADone *)
    eapply pool_ok_update; eauto; simpl; rewrite ?Heqw1; try reflexivity; discriminate.
Qed.

Lemma exited_below_update i ws w wk wk' :
  ws !! w = Some wk -> pc wk <> WExited ->
  exited_below i ws -> exited_below i (<[w := wk']> ws).
Proof.
  intros Hw Hne Hb j jk Hj [(-> & <- & _)|(? & ?)]%list_lookup_insert_Some.
  - exfalso. apply Hne. eapply Hb; eauto.
  - eapply Hb; eauto.
Qed.

Lemma router_ok_update r ws w wk wk' :
  ws !! w = Some wk -> pc wk <> WExited ->
  stopped (pc wk') = stopped (pc wk) ->
  router_ok r ws -> router_ok r (<[w := wk']> ws).
Proof.
  intros Hw Hne Hst. destruct r as [|i|i|]; simpl; rewrite ?length_insert.
  - intros H x xk [(-> & <- & _)|(? & ?)]%list_lookup_insert_Some.
    + rewrite Hst. eauto.
    + eauto.
  - intros [Hi Hb]. split; [exact Hi|]. eapply exited_below_update; eauto.
  - intros (Hi & Hb & Hs). split; [exact Hi|split].
    + eapply exited_below_update; eauto.
    + intros xk [(-> & <- & _)|(? & ?)]%list_lookup_insert_Some.
      * rewrite Hst. eauto.
      * eauto.
  - eapply exited_below_update; eauto.
Qed.

Lemma stop_ok_update ws r c w wk wk' :
  ws !! w = Some wk -> pc wk <> WExited ->
  stopped (pc wk') = stopped (pc wk) ->
  wait wk' = wait_of (pc wk') ->
  stop_ok ws r c -> stop_ok (<[w := wk']> ws) r c.
Proof.
  intros Hw Hne Hst Hwait (H1 & H2 & H3). split; [|split]; simpl.
  - intros x xk [(-> & <- & _)|(? & ?)]%list_lookup_insert_Some; eauto.
  - exact H2.
  - eapply router_ok_update; eauto.
Qed.

Lemma stop_from_ok i s :
  exited_below i (workers s) -> i <= length (workers s) ->
  router_ok (stop_from i s) (workers s).
Proof.
  intros Hb Hi. unfold stop_from.
  destruct (i <? length (workers s)) eqn:E.
  - apply Nat.ltb_lt in E. simpl. auto.
  - apply Nat.ltb_ge in E. simpl. replace (length (workers s)) with i by lia.
    exact Hb.
Qed.

Lemma stop_from_not_select i s : stop_from i s <> RSelect.
Proof. unfold stop_from. destruct (_ <? _); discriminate. Qed.

Ltac worker_facts :=
  simpl;
  match goal with
  | Hl : workers _ !! _ = Some ?wk, Hp : pc ?wk = _,
    H1 : (forall w wk, _ !! w = Some wk -> wait wk = wait_of (pc wk)) |- _ =>
      rewrite ?(H1 _ _ Hl), ?Hp
  end; simpl; (reflexivity || discriminate || lia).

Lemma step_stop a s s' : stop_inv s -> step a s = Some s' -> stop_inv s'.
Proof.
  unfold stop_inv. intros HI H. pose proof HI as (H1 & H2 & H3).
  destruct a; inv_step H; simpl;
    repeat match goal with E : router s = _ |- _ => rewrite E end;
    try exact HI.
  - (* ACallStop *)
    split; [exact H1|split; [|exact H3]]; simpl.
    destruct H2 as [H2a H2b]. split; [discriminate|].
    intros Hr. specialize (H2b Hr). congruence.
  - (* AStopRouter *)
    split; [exact H1|split]; simpl.
    + split; [intros _; apply stop_from_not_select|reflexivity].
    + apply stop_from_ok; [|lia]. intros j wk Hj. lia.
  - (* AHand *) eapply stop_ok_update; [eassumption| | | |eassumption]; worker_facts.
  - (* AAdd *) eapply stop_ok_update; [eassumption| | | |eassumption]; worker_facts.
  - (* APublish *) eapply stop_ok_update; [eassumption| | | |eassumption]; worker_facts.
  - (* ADo *) eapply stop_ok_update; [eassumption| | | |eassumption]; worker_facts.
  - (* AStopWorker *)
    destruct H3 as [Hi Hb]. split; [|split].
    + intros x xk [(-> & <- & _)|(? & ?)]%list_lookup_insert_Some; eauto.
      simpl. rewrite (H1 _ _ Heqo), Heqw0. reflexivity.
    + split; [discriminate|]. intros _. apply H2. discriminate.
    + simpl. rewrite length_insert. split; [exact Hi|split].
      * eapply exited_below_update; eauto. rewrite Heqw0. discriminate.
      * intros xk [(_ & <- & _)|(? & ?)]%list_lookup_insert_Some;
          [reflexivity|congruence].
  - (* ADone *)
    eapply stop_ok_update; [eassumption| | | |eassumption]; worker_facts.
  - (* AWaited *)
    destruct H3 as (Hi & Hb & Hs). split; [exact H1|split].
    + split; [intros _; apply stop_from_not_select|].
      intros _. apply H2. discriminate.
    + apply stop_from_ok; [|lia].
      intros j jk Hj Hjk. destruct (decide (j = i)) as [->|Hne].
      * assert (jk = w) as -> by congruence.
        specialize (Hs w eq_refl). specialize (H1 _ _ Heqo).
        apply Nat.eqb_eq in Heqb. rewrite Heqb in H1.
        destruct (pc w); simpl in *; congruence.
      * apply (Hb j jk); [lia|exact Hjk].
Qed.

Lemma Start_pool (n : Z) (w0 : W) : pool_inv (Start (P := P) n w0).
Proof.
  unfold pool_inv, pool_ok, out, Start. simpl. split; [constructor|split].
  - intros w Hw. inversion Hw.
  - intros w wk H Hs. apply list_lookup_fmap_Some in H as (j & -> & H).
    discriminate.
Qed.

Lemma Start_stop (n : Z) (w0 : W) : stop_inv (Start (P := P) n w0).
Proof.
  unfold stop_inv, stop_ok, Start. simpl. split; [|split].
  - intros w wk H. apply list_lookup_fmap_Some in H as (j & -> & H). reflexivity.
  - split; [discriminate|congruence].
  - intros w wk H. apply list_lookup_fmap_Some in H as (j & -> & H). reflexivity.
Qed.

Lemma step_inv n a s s' : inv n s -> step a s = Some s' -> inv n s'.
Proof.
  intros (H1 & H2 & H3) H. split; [|split].
  - eapply step_shape; eauto.
  - eapply step_pool; eauto.
  - eapply step_stop; eauto.
Qed.

Lemma reachable_inv (n : Z) (w0 : W) s :
  reachable (Start n w0) s -> inv (Z.to_nat n) s.
Proof.
  intros [sched H]. eapply (run_invariant (inv (Z.to_nat n))); [|split; [|split]|exact H].
  - intros a s1 s2. apply step_inv.
  - apply Start_shape.
  - apply Start_pool.
  - apply Start_stop.
Qed.

Lemma publish_enabled n s w wk :
  inv n s -> n <= 200 ->
  workers s !! w = Some wk -> pc wk = WPublish ->
  is_Some (step (APublish w) s).
Proof.
  intros ((Hl & Hid & Hc1 & Hc2) & (Hnd & H5 & H6) & _) Hn Hw Hp.
  unfold step, chan_send. rewrite Hw, Hp.
  assert (Hlen : length (buf (workerPool s)) < n).
  { unfold out in *. apply NoDup_app in Hnd as (Hnd & _ & _).
    apply (NoDup_bounded_length _ n w); auto.
    - intros x Hx. destruct (H5 x) as (xk & Hxk & _).
      + apply elem_of_app. left. exact Hx.
      + rewrite <- Hl. eapply lookup_lt_Some; eauto.
    - rewrite <- Hl. eapply lookup_lt_Some; eauto.
    - intros Hx. destruct (H5 w) as (xk & Hxk & Hpk).
      + apply elem_of_app. left. exact Hx.
      + assert (xk = wk) as -> by congruence. rewrite Hp in Hpk. discriminate. }
  rewrite Hc1. destruct (length (buf (workerPool s)) <? 200) eqn:E.
  - simpl. eauto.
  - apply Nat.ltb_ge in E. lia.
Qed.

Lemma quiescent_blocked s a :
  quiescent s = true -> In a (candidates s) -> step a s = None.
Proof.
  unfold quiescent. intros Hq Hin.
  rewrite forallb_forall in Hq. specialize (Hq a Hin).
  unfold blocked in Hq. destruct (step a s); [discriminate|reflexivity].
Qed.

Lemma candidate_router a s :
  In a [AStopRouter; ARoute; AStopWorker; AWaited] -> In a (candidates s).
Proof. intros H. unfold candidates. apply in_or_app. left. exact H. Qed.

Lemma candidate_handoff a g s :
  g < length (handoffs s) -> In a [ATake g; AHand g] -> In a (candidates s).
Proof.
  intros Hg H. unfold candidates. apply in_or_app. right.
  apply in_or_app. left. apply in_flat_map. exists g. split; [|exact H].
  apply in_seq. lia.
Qed.

Lemma candidate_worker a w s :
  w < length (workers s) -> In a [AAdd w; APublish w; ADo w; ADone w] ->
  In a (candidates s).
Proof.
  intros Hg H. unfold candidates. apply in_or_app. right.
  apply in_or_app. right. apply in_flat_map. exists w. split; [|exact H].
  apply in_seq. lia.
Qed.

Lemma candidates_internal s a : In a (candidates s) -> internal a = true.
Proof.
  unfold candidates. intros H.
  apply in_app_or in H as [H|H]; [|apply in_app_or in H as [H|H]].
  - simpl in H. intuition; subst; reflexivity.
  - apply in_flat_map in H as (g & _ & H). simpl in H. intuition; subst; reflexivity.
  - apply in_flat_map in H as (g & _ & H). simpl in H. intuition; subst; reflexivity.
Qed.

Lemma held_nil (hs : list (@Handoff P)) :
  (forall g t w, hs !! g = Some (HSend t w) -> False) -> held hs = [].
Proof.
  induction hs as [|h hs IH]; intros H; [reflexivity|].
  unfold held in *. simpl. destruct h as [t|t w].
  - simpl. apply IH. intros g t' w' Hg. apply (H (S g) t' w'). exact Hg.
  - exfalso. apply (H 0 t w). reflexivity.
Qed.

Lemma quiescent_drained n s :
  inv n s -> 1 <= n <= 200 -> router s = RSelect -> quiescent s = true ->
  buf (tasks s) = [] /\ handoffs s = [] /\
  (forall w wk, workers s !! w = Some wk -> pc wk = WSelect).
Proof.
  intros HI Hn Hr Hq.
  pose proof HI as ((Hl & Hid & Hc1 & Hc2) & (Hnd & H5 & H6) & (Hw & Hsr & Hro)).
  rewrite Hr in Hro. simpl in Hro.
  assert (Hws : forall w wk, workers s !! w = Some wk -> pc wk = WSelect).
  { intros w wk Hwk.
    assert (Hlt : w < length (workers s)) by (eapply lookup_lt_Some; eauto).
    specialize (Hro _ _ Hwk).
    destruct (pc wk) eqn:Hp; try reflexivity; try discriminate.
    - assert (E : step (AAdd w) s = None)
        by (apply quiescent_blocked; auto; eapply candidate_worker; simpl; eauto).
      unfold step in E. rewrite Hwk, Hp in E. discriminate.
    - assert (E : step (APublish w) s = None)
        by (apply quiescent_blocked; auto; eapply candidate_worker; simpl; eauto).
      destruct (publish_enabled n s w wk HI) as [x Hx]; auto; try lia. congruence.
    - assert (E : step (ADo w) s = None)
        by (apply quiescent_blocked; auto; eapply candidate_worker; simpl; eauto).
      unfold step in E. rewrite Hwk, Hp in E. destruct (Do t (wl s)). discriminate. }
  assert (Hnos : forall g t w, handoffs s !! g = Some (HSend t w) -> False).
  { intros g t w Hg.
    assert (Hlt : g < length (handoffs s)) by (eapply lookup_lt_Some; eauto).
    assert (E : step (AHand g) s = None)
      by (apply quiescent_blocked; auto; eapply candidate_handoff; simpl; eauto).
    destruct (H5 w) as (wk & Hwk & _).
    { unfold out. apply elem_of_app. right. unfold held.
      apply list_elem_of_In, in_flat_map. exists (HSend t w). split.
      - apply list_elem_of_In. eapply list_elem_of_lookup_2; eauto.
      - left. reflexivity. }
    unfold step in E. rewrite Hg, Hwk, (Hws _ _ Hwk) in E. discriminate. }
  assert (Hpool : buf (workerPool s) <> []).
  { destruct (lookup_lt_is_Some_2 (workers s) 0) as [wk Hwk]; [lia|].
    specialize (H6 0 wk Hwk (Hws _ _ Hwk)).
    unfold out in H6. rewrite (held_nil _ Hnos), app_nil_r in H6.
    intros E. rewrite E in H6. inversion H6. }
  split; [|split; [|exact Hws]].
  - assert (E : step ARoute s = None)
      by (apply quiescent_blocked; auto; apply candidate_router; simpl; auto).
    unfold step, chan_recv in E. rewrite Hr in E.
    destruct (buf (tasks s)); [reflexivity|discriminate].
  - destruct (handoffs s) as [|h hs] eqn:Hhs; [reflexivity|]. exfalso.
    destruct h as [t|t w].
    + assert (E : step (ATake 0) s = None).
      { apply quiescent_blocked; auto. apply (candidate_handoff _ 0).
        - rewrite Hhs. simpl. lia.
        - simpl. auto. }
      unfold step, chan_recv in E. rewrite Hhs in E. simpl in E.
      destruct (buf (workerPool s)); [congruence|discriminate].
    + apply (Hnos 0 t w). reflexivity.
Qed.

Lemma stop_from_weight i s :
  router_weight (length (workers s)) (stop_from i s)
  <= 2 * (length (workers s) - i).
Proof. unfold stop_from. destruct (_ <? _); simpl; lia. Qed.

Lemma step_potential a s s' :
  internal a = true -> step a s = Some s' -> potential s' < potential s.
Proof.
  intros Hi H. unfold potential.
  destruct a; try discriminate Hi; inv_step H; rewrite ?length_insert;
    repeat match goal with
    | E : router s = _ |- _ => rewrite E
    | E : buf (tasks s) = _ |- _ => rewrite E
    end; simpl.
  - (* AStopRouter *)
    pose proof (stop_from_weight 0 s). lia.
  - (* ARoute *)
    rewrite sum_list_with_app. simpl. lia.
  - (* ATake *)
    pose proof (sum_map_insert handoff_weight _ _ _ (HSend t n) Heqo) as E.
    simpl in E. lia.
  - (* AHand *)
    pose proof (sum_map_delete handoff_weight _ _ _ Heqo) as E1.
    pose proof (sum_map_insert (fun w : @Worker P => pc_weight (pc w)) _ _ _
                  (set_pc (WDo t) w0) Heqo0) as E2.
    simpl in E1, E2. rewrite Heqw1 in E2. simpl in E2. lia.
  - (* AAdd *)
    pose proof (sum_map_insert (fun w : @Worker P => pc_weight (pc w)) _ _ _
                  {| ID := ID w0; pc := WPublish; wait := wait w0 + 1 |} Heqo) as E2.
    simpl in E2. rewrite Heqw1 in E2. simpl in E2. lia.
  - (* APublish *)
    pose proof (sum_map_insert (fun w : @Worker P => pc_weight (pc w)) _ _ _
                  (set_pc WSelect w0) Heqo) as E2.
    simpl in E2. rewrite Heqw1 in E2. simpl in E2. lia.
  - (* ADo *)
    pose proof (sum_map_insert (fun w : @Worker P => pc_weight (pc w)) _ _ _
                  (set_pc WPublish w0) Heqo) as E2.
    simpl in E2. rewrite Heqw1 in E2. simpl in E2. lia.
  - (* AStopWorker *)
    pose proof (sum_map_insert (fun w : @Worker P => pc_weight (pc w)) _ _ _
                  (set_pc WAck w) Heqo) as E2.
    simpl in E2. rewrite Heqw0 in E2. simpl in E2.
    apply lookup_lt_Some in Heqo. lia.
  - (* ADone *)
    pose proof (sum_map_insert (fun w : @Worker P => pc_weight (pc w)) _ _ _
                  {| ID := ID w0; pc := WExited; wait := wait w0 - 1 |} Heqo) as E2.
    simpl in E2. rewrite Heqw1 in E2. simpl in E2. lia.
  - (* AWaited *)
    pose proof (stop_from_weight (i + 1) s).
    apply lookup_lt_Some in Heqo. lia.
Qed.

Lemma run_internal_bounded (more : list (Action P)) s s' :
  forallb internal more = true -> run more s = Some s' ->
  length more + potential s' <= potential s.
Proof.
  revert s. induction more as [|a more IH]; intros s Hi Hr; simpl in *.
  - injection Hr as <-. lia.
  - apply andb_prop in Hi as [Ha Hi].
    destruct (step a s) as [s1|] eqn:E; [|discriminate].
    specialize (IH s1 Hi Hr). pose proof (step_potential a s s1 Ha E). lia.
Qed.

Lemma forallb_false {A} (f : A -> bool) (l : list A) :
  forallb f l = false -> exists x, In x l /\ f x = false.
Proof.
  induction l as [|x l IH]; simpl; [discriminate|].
  destruct (f x) eqn:E; simpl.
  - intros H. destruct (IH H) as (y & Hy & Hfy). eauto.
  - intros _. eauto.
Qed.

Lemma drains s :
  exists more s',
    forallb internal more = true /\ run more s = Some s' /\ quiescent s' = true.
Proof.
  remember (potential s) as k eqn:Hk. revert s Hk.
  induction k as [k IH] using lt_wf_ind. intros s ->.
  destruct (quiescent s) eqn:Hq.
  - exists [], s. auto.
  - apply forallb_false in Hq as (a & Hin & Hb).
    unfold blocked in Hb. destruct (step a s) as [s1|] eqn:E; [|discriminate].
    pose proof (candidates_internal _ _ Hin) as Hia.
    destruct (IH (potential s1) (step_potential _ _ _ Hia E) s1 eq_refl)
      as (more & s' & Hm & Hr & Hq').
    exists (a :: more), s'. simpl. rewrite Hia, E. auto.
Qed.

Lemma filter_all {A} (q : A -> bool) (l : list A) :
  (forall x, In x l -> q x = false) ->
  filter (fun y => q y = false) l = l.
Proof.
  induction l as [|x l IH]; intros H; [reflexivity|].
  rewrite filter_cons. destruct (decide (q x = false)) as [_|Hn].
  - f_equal. apply IH. intros y Hy. apply H. right. exact Hy.
  - exfalso. apply Hn, H. left. reflexivity.
Qed.

Lemma goroutines_running n s :
  inv n s -> router s = RSelect -> goroutines s = n + 1 + length (handoffs s).
Proof.
  intros ((Hl & _) & _ & (_ & _ & Hro)) Hr. unfold goroutines, router_live.
  rewrite Hr in *. simpl in Hro. rewrite filter_all, Hl; [reflexivity|].
  intros wk Hin. apply list_elem_of_In, list_elem_of_lookup in Hin as [w Hw].
  specialize (Hro _ _ Hw). unfold exited. destruct (pc wk); try reflexivity.
  discriminate.
Qed.


Lemma all_exited_spec s :
  (forall w wk, workers s !! w = Some wk -> pc wk = WExited) ->
  all_exited s = true.
Proof.
  intros H. unfold all_exited. apply forallb_forall. intros wk Hin.
  apply list_elem_of_In, list_elem_of_lookup in Hin as [w Hw].
  unfold exited. rewrite (H _ _ Hw). reflexivity.
Qed.

(** C6, as the code has it.  The registry [Start] makes holds 200
    channels whatever the number of workers, and so it does in every
    state the dispatcher reaches; with at most 200 workers a worker that
    stands at [w.pool <- w.tasks] is never kept waiting. *)
Theorem registry_holds_200 (n : Z) (w0 : W) s :
  reachable (Start n w0) s ->
  cap (workerPool (Start (P := P) n w0)) = 200 /\
  cap (workerPool s) = 200 /\
  ((n <= 200)%Z ->
   forall w wk, workers s !! w = Some wk -> pc wk = WPublish ->
                is_Some (step (APublish w) s)).
Proof.
  intros Hr. pose proof (reachable_inv _ _ _ Hr) as HI.
  split; [reflexivity|split].
  - apply HI.
  - intros Hn w wk Hw Hp. eapply publish_enabled; eauto. lia.
Qed.


Lemma idle_step a s s' :
  internal a = true -> step a s = Some s' ->
  buf (tasks s) = [] /\ handoffs s = [] /\ stopCall s = SIdle /\ router s = RSelect ->
  buf (tasks s') = [] /\ handoffs s' = [] /\ stopCall s' = SIdle /\ router s' = RSelect.
Proof.
  intros Hi H (Ht & Hh & Hs & Hr).
  destruct a; try discriminate Hi; inv_step H; simpl; try congruence; auto.
  all: rewrite Hh in *; discriminate.
Qed.

Lemma idle_run (pre : list (Action P)) s s' :
  forallb internal pre = true -> run pre s = Some s' ->
  buf (tasks s) = [] /\ handoffs s = [] /\ stopCall s = SIdle /\ router s = RSelect ->
  buf (tasks s') = [] /\ handoffs s' = [] /\ stopCall s' = SIdle /\ router s' = RSelect.
Proof.
  revert s. induction pre as [|a pre IH]; intros s Hi Hr H; simpl in *.
  - congruence.
  - apply andb_prop in Hi as [Ha Hi].
    destruct (step a s) as [s1|] eqn:E; [|discriminate].
    eapply IH; eauto. eapply idle_step; eauto.
Qed.

Lemma not_stopped_select n s : inv n s -> stopCall s = SIdle -> router s = RSelect.
Proof.
  intros (_ & _ & (_ & [_ H2] & _)) Hs.
  destruct (router s) eqn:E; try reflexivity;
    (assert (X : stopCall s = SReturned) by (apply H2; discriminate));
    congruence.
Qed.

End DispatcherProperties.

Section TestWorkload.

Import dispatcher.

Implicit Types (s : State TestPayload testWorkload) (a : Action TestPayload).

Lemma doing_at (w : @Worker TestPayload) p :
  pc w = p -> doing w = match p with WDo t => [t] | _ => [] end.
Proof. intros <-. reflexivity. Qed.

Ltac worker_moves Hl Hp new :=
  let E := fresh "E" in
  pose proof (flat_map_insert_perm
                (fun w : @Worker TestPayload => map task_name (doing w))
                _ _ _ new Hl) as E;
  simpl in E; rewrite (doing_at _ _ Hp) in E; simpl in E;
  rewrite ?app_nil_r in E.

Lemma step_account a s s' :
  step a s = Some s' ->
  account s' ≡ₚ account s ++ map seen_as (dispatched [a]).
Proof.
  intros H. unfold account.
  destruct a; inv_step H; rewrite ?app_nil_r; try reflexivity;
    repeat match goal with
    | E : buf (tasks s) = _ |- _ => rewrite E
    end; simpl.
  - (* ADispatch *)
    rewrite map_app. simpl. unfold task_name at 2. simpl. solve_Permutation.
  - (* ARoute *)
    rewrite flat_map_app. simpl. solve_Permutation.
  - (* ATake *)
    pose proof (flat_map_insert_perm
                  (fun h : @Handoff TestPayload => [task_name (handoff_task h)])
                  _ _ _ (HSend t n) Heqo) as E.
    simpl in E. apply Permutation_app_inv_r in E. rewrite E. reflexivity.
  - (* AHand *)
    rewrite (flat_map_delete_perm
               (fun h : @Handoff TestPayload => [task_name (handoff_task h)])
               _ _ _ Heqo). simpl.
    worker_moves Heqo0 Heqw1 (set_pc (WDo t) w0).
    rewrite E. solve_Permutation.
  - (* AAdd *)
    worker_moves Heqo Heqw1 (@Build_Worker TestPayload (ID w0) WPublish (wait w0 + 1)).
    rewrite E. reflexivity.
  - (* APublish *)
    worker_moves Heqo Heqw1 (set_pc WSelect w0). rewrite E. reflexivity.
  - (* ADo *)
    worker_moves Heqo Heqw1 (set_pc WPublish w0).
    rewrite <- E. unfold task_name, seen_as. solve_Permutation.
  - (* AStopWorker *)
    worker_moves Heqo Heqw0 (set_pc WAck w). rewrite E. reflexivity.
  - (* ADone *)
    worker_moves Heqo Heqw1 (@Build_Worker TestPayload (ID w0) WExited (wait w0 - 1)).
    rewrite E. reflexivity.
Qed.

Lemma run_account (sched : list (Action TestPayload)) s s' :
  run sched s = Some s' ->
  account s' ≡ₚ account s ++ map seen_as (dispatched sched).
Proof.
  revert s. induction sched as [|a sched IH]; intros s Hr; simpl in Hr.
  - injection Hr as <-. simpl. rewrite app_nil_r. reflexivity.
  - destruct (step a s) as [s1|] eqn:E; [|discriminate].
    rewrite (IH _ Hr), (step_account _ _ _ E), <- app_assoc, <- map_app.
    apply Permutation_app_head. destruct a; reflexivity.
Qed.

Lemma step_doCalled a s s' :
  step a s = Some s' ->
  doCalled (wl s) = length (seenTasks (wl s)) ->
  doCalled (wl s') = length (seenTasks (wl s')).
Proof.
  intros H Hd. destruct a; inv_step H; simpl; try exact Hd.
  rewrite length_app. simpl. lia.
Qed.

Lemma Start_idle (n : Z) :
  buf (tasks (Start (P := TestPayload) n fresh_workload)) = [] /\
  handoffs (Start (P := TestPayload) n fresh_workload) = [] /\
  stopCall (Start (P := TestPayload) n fresh_workload) = SIdle /\
  router (Start (P := TestPayload) n fresh_workload) = RSelect.
Proof. repeat split. Qed.

(** The state at rest after 500 dispatches to 20 workers. *)
Lemma at_rest_after_dispatch (sched : list (Action TestPayload)) s :
  run sched (Start 20 fresh_workload) = Some s ->
  stopCall s = SIdle ->
  length (dispatched sched) = 500 ->
  quiescent s = true ->
  doCalled (wl s) = 500 /\
  length (seenTasks (wl s)) = 500 /\
  seenTasks (wl s) ≡ₚ map seen_as (dispatched sched) /\
  pending s = [] /\
  handoffs s = [] /\
  forall pre s0,
    forallb internal pre = true ->
    run pre (Start 20 fresh_workload) = Some s0 ->
    goroutines s = goroutines s0.
Proof.
  intros Hr Hs Hlen Hq.
  assert (HI : inv 20 s)
    by (apply (reachable_inv 20 fresh_workload); exists sched; exact Hr).
  pose proof (not_stopped_select _ _ HI Hs) as Hsel.
  destruct (quiescent_drained 20 s HI ltac:(lia) Hsel Hq) as (Ht & Hh & Hw).
  assert (Hdo : flat_map doing (workers s) = []).
  { apply flat_map_all_nil. intros w wk Hwk.
    unfold doing. rewrite (Hw _ _ Hwk). reflexivity. }
  assert (Hp : pending s = []).
  { unfold pending. rewrite Ht, Hh, Hdo. reflexivity. }
  assert (Hseen : seenTasks (wl s) ≡ₚ map seen_as (dispatched sched)).
  { pose proof (run_account _ _ _ Hr) as E. unfold account in E.
    rewrite Ht, Hh in E. simpl in E.
    replace (flat_map (fun w => map task_name (doing w)) (workers s))
      with (@nil string) in E; [exact E|].
    symmetry. apply flat_map_all_nil. intros w wk Hwk.
    unfold doing. rewrite (Hw _ _ Hwk). reflexivity. }
  assert (Hcount : doCalled (wl s) = length (seenTasks (wl s))).
  { revert Hr. apply (run_invariant
      (fun s => doCalled (wl s) = length (seenTasks (wl s)))); [|reflexivity].
    intros a s1 s2 H1 H2. eapply step_doCalled; eauto. }
  assert (Hl500 : length (seenTasks (wl s)) = 500).
  { rewrite Hseen, length_map. exact Hlen. }
  repeat split; try assumption; try lia.
  intros pre s0 Hi Hpre.
  assert (HI0 : inv 20 s0)
    by (apply (reachable_inv 20 fresh_workload); exists pre; exact Hpre).
  destruct (idle_run _ _ _ Hi Hpre (Start_idle 20)) as (_ & Hh0 & _ & Hr0).
  rewrite (goroutines_running _ _ HI Hsel), (goroutines_running _ _ HI0 Hr0).
  rewrite Hh, Hh0. reflexivity.
Qed.

Lemma internal_keeps_idle a s s' :
  internal a = true -> step a s = Some s' ->
  stopCall s = SIdle -> stopCall s' = SIdle.
Proof.
  intros Hi H Hs. destruct a; try discriminate Hi; inv_step H; simpl; congruence.
Qed.

Lemma internal_run (more : list (Action TestPayload)) s s' :
  forallb internal more = true -> run more s = Some s' ->
  dispatched more = [] /\ (stopCall s = SIdle -> stopCall s' = SIdle).
Proof.
  revert s. induction more as [|a more IH]; intros s Hi Hr; simpl in *.
  - injection Hr as <-. auto.
  - apply andb_prop in Hi as [Ha Hi].
    destruct (step a s) as [s1|] eqn:E; [|discriminate].
    destruct (IH s1 Hi Hr) as [Hd Hs]. split.
    + destruct a; try discriminate Ha; exact Hd.
    + intros H. apply Hs. eapply internal_keeps_idle; eauto.
Qed.

Lemma dispatched_app (l1 l2 : list (Action TestPayload)) :
  dispatched (l1 ++ l2) = dispatched l1 ++ dispatched l2.
Proof.
  induction l1 as [|a l1 IH]; simpl; [reflexivity|].
  destruct a; simpl; rewrite ?IH; reflexivity.
Qed.

(** C4.  Twenty workers, five hundred dispatches, [Stop] not called.
    However the goroutines are scheduled from there on, they come to
    rest: every run of the package's own steps is bounded, and one of
    them ends with nothing left to do.  Whenever they are at rest, [Do]
    has been called 500 times, the tasks seen are the payloads
    dispatched, each once (500 distinct tasks when the payloads are),
    no task is pending, no handoff goroutine is left, and the
    goroutines are as many as in any state before the first dispatch. *)
Theorem dispatch_drains_without_leak (sched : list (Action TestPayload)) s :
  run sched (Start 20 fresh_workload) = Some s ->
  stopCall s = SIdle ->
  length (dispatched sched) = 500 ->
  (forall more s',
      forallb internal more = true -> run more s = Some s' ->
      length more <= potential s) /\
  (exists more s',
      forallb internal more = true /\ run more s = Some s' /\
      quiescent s' = true) /\
  (forall more s',
      forallb internal more = true -> run more s = Some s' ->
      quiescent s' = true ->
      doCalled (wl s') = 500 /\
      length (seenTasks (wl s')) = 500 /\
      seenTasks (wl s') ≡ₚ map seen_as (dispatched sched) /\
      (NoDup (map seen_as (dispatched sched)) -> NoDup (seenTasks (wl s'))) /\
      pending s' = [] /\
      handoffs s' = [] /\
      forall pre s0,
        forallb internal pre = true ->
        run pre (Start 20 fresh_workload) = Some s0 ->
        goroutines s' = goroutines s0).
Proof.
  intros Hr Hs Hlen. split; [|split].
  - intros more s' Hi Hm. pose proof (run_internal_bounded _ _ _ Hi Hm). lia.
  - apply drains.
  - intros more s' Hi Hm Hq.
    destruct (internal_run _ _ _ Hi Hm) as [Hd Hidle].
    destruct (at_rest_after_dispatch (sched ++ more) s')
      as (H1 & H2 & H3 & H4 & H5 & H6).
    + rewrite run_app, Hr. exact Hm.
    + apply Hidle. exact Hs.
    + rewrite dispatched_app, Hd, app_nil_r. exact Hlen.
    + exact Hq.
    + rewrite dispatched_app, Hd, app_nil_r in H3.
      repeat split; try assumption.
      intros Hnd. rewrite H3. exact Hnd.
Qed.


(** With 201 workers the registry is smaller than the pool, and once 200
    workers have published the last one cannot. *)
Lemma registry_smaller_than_pool :
  (Z.of_nat (cap (workerPool (Start (P := TestPayload) 201 fresh_workload))) < 201)%Z /\
  exists s wk,
    run crowd (Start 201 fresh_workload) = Some s /\
    workers s !! 200 = Some wk /\ pc wk = WPublish /\
    step (APublish 200) s = None.
Proof.
  split; [reflexivity|].
  eexists _, _. vm_compute. repeat split; reflexivity.
Qed.

(** Twenty workers: the first publishes at once. *)
Lemma registry_holds_200_witness :
  exists s,
    run [AAdd 0] (Start 20 fresh_workload) = Some s /\
    is_Some (step (APublish 0) s).
Proof.
  eexists. split; [reflexivity|].
  refine (proj2 (proj2 (registry_holds_200 20 fresh_workload _ _)) _ 0 _ _ _).
  - exists [AAdd 0]. reflexivity.
  - lia.
  - reflexivity.
  - reflexivity.
Defined.


(** The run of the test in which the workers take the payloads in turn. *)
Lemma dispatch_drains_without_leak_witness :
  exists s,
    run (boot 20 ++ serve_all 20 500) (Start 20 fresh_workload) = Some s /\
    doCalled (wl s) = 500 /\ length (seenTasks (wl s)) = 500 /\
    goroutines s = goroutines (Start (P := TestPayload) 20 fresh_workload).
Proof.
  assert (E : exists s,
             run (boot 20 ++ serve_all 20 500) (Start 20 fresh_workload) = Some s /\
             stopCall s = SIdle /\ quiescent s = true).
  { eexists. split; [vm_compute; reflexivity|]. split; vm_compute; reflexivity. }
  destruct E as (s & Hr & Hs & Hq).
  exists s. split; [exact Hr|].
  destruct (dispatch_drains_without_leak _ s Hr Hs) as (_ & _ & H).
  { vm_compute. reflexivity. }
  destruct (H [] s eq_refl eq_refl Hq) as (H1 & H2 & _ & _ & _ & _ & H6).
  split; [exact H1|split; [exact H2|]].
  apply (H6 []); reflexivity.
Defined.

End TestWorkload.

(** *** Bounds, order and shutdown *)

Section DispatcherMore.

Import dispatcher.

Context {P W : Type} {workload : Workload P W}.
Implicit Types (s : State P W) (a : Action P) (ws : list (@Worker P)).

(** *** Channel bounds *)

Lemma step_within_caps a s s' :
  within_caps s -> step a s = Some s' -> within_caps s'.
Proof.
  unfold within_caps. intros [H1 H2] H.
  destruct a; inv_step H; simpl; rewrite ?length_app; simpl;
    repeat match goal with
    | E : (_ <? _) = true |- _ => apply Nat.ltb_lt in E
    | E : buf _ = _ :: _ |- _ => rewrite E in *; simpl in *
    end; lia.
Qed.

Lemma reachable_within_caps (n : Z) (w0 : W) s :
  reachable (Start n w0) s -> within_caps s.
Proof.
  intros [sched H]. eapply (run_invariant within_caps); [| |exact H].
  - intros a s1 s2. apply step_within_caps.
  - unfold within_caps. simpl. lia.
Qed.

(** X1.  In every state the dispatcher reaches, the intake holds at most
    2000 tasks and the registry at most 200 channels, and [Dispatch]
    goes through exactly when fewer than 2000 tasks wait in the intake:
    with 2000 waiting, the caller blocks. *)
Theorem intake_blocks_at_2000 (n : Z) (w0 : W) s (p : P) :
  reachable (Start n w0) s ->
  length (buf (tasks s)) <= 2000 /\
  length (buf (workerPool s)) <= 200 /\
  (is_Some (step (ADispatch p) s) <-> length (buf (tasks s)) < 2000).
Proof.
  intros Hr. destruct (reachable_within_caps _ _ _ Hr) as [H1 H2].
  destruct (reachable_inv _ _ _ Hr) as ((_ & _ & Hc1 & Hc2) & _).
  rewrite Hc2 in H1. rewrite Hc1 in H2.
  split; [exact H1|split; [exact H2|]].
  unfold step, chan_send. rewrite Hc2.
  destruct (length (buf (tasks s)) <? 2000) eqn:E; simpl.
  - apply Nat.ltb_lt in E. split; [auto|eauto].
  - apply Nat.ltb_ge in E. split; [intros [x Hx]; discriminate|lia].
Qed.

(** *** The work of the goroutines *)

Lemma step_work a s s' :
  step a s = Some s' ->
  (if internal a then 1 else 0) + potential s'
  <= potential s + 5 * length (dispatched [a]).
Proof.
  intros H. destruct (internal a) eqn:Hi.
  - pose proof (step_potential a s s' Hi H). lia.
  - destruct a; try discriminate Hi; inv_step H; unfold potential; simpl;
      rewrite ?length_app; simpl; lia.
Qed.

Lemma run_work (sched : list (Action P)) s s' :
  run sched s = Some s' ->
  work sched + potential s' <= potential s + 5 * length (dispatched sched).
Proof.
  revert s. induction sched as [|a sched IH]; intros s Hr; simpl in Hr.
  - injection Hr as <-. unfold work. simpl. lia.
  - destruct (step a s) as [s1|] eqn:E; [|discriminate].
    specialize (IH s1 Hr). pose proof (step_work a s s1 E) as Hs.
    unfold work in *. simpl.
    destruct a; simpl in *; lia.
Qed.

Lemma potential_Start (n : Z) (w0 : W) :
  potential (Start (P := P) n w0) = 6 * Z.to_nat n + 1.
Proof.
  unfold potential, Start. simpl. rewrite length_map, length_seq.
  assert (E : forall k i,
             sum_list_with (fun w : @Worker P => pc_weight (pc w))
               (map NewWorker (seq i k)) = 4 * k).
  { induction k as [|k IH]; intros i; simpl; [reflexivity|].
    rewrite IH. lia. }
  rewrite E. lia.
Qed.

(** X2.  The goroutines of the package do a bounded amount of work:
    along any schedule from [Start(n, wl)], the steps they take are at
    most [6n + 1] plus five per dispatched task (starting and stopping a
    worker takes six steps at most, the routing goroutine's return one,
    a task five from the intake to the end of [Do]), less what the state
    reached still has to do.  No goroutine spins. *)
Theorem goroutine_steps_bounded (n : Z) (w0 : W) (sched : list (Action P)) s :
  run sched (Start n w0) = Some s ->
  work sched + potential s
  <= 6 * Z.to_nat n + 1 + 5 * length (dispatched sched).
Proof.
  intros Hr. pose proof (run_work _ _ _ Hr) as H.
  rewrite potential_Start in H. exact H.
Qed.


(** *** The registry *)

Lemma NoDup_below_length (l : list nat) (n : nat) :
  NoDup l -> (forall x, x ∈ l -> x < n) -> length l <= n.
Proof.
  intros Hnd Hb.
  assert (H : length l <= length (seq 0 n)).
  { apply NoDup_incl_length.
    - apply NoDup_ListNoDup. exact Hnd.
    - intros x Hx. apply in_seq. split; [lia|].
      apply Hb, list_elem_of_In. exact Hx. }
  rewrite length_seq in H. exact H.
Qed.

Lemma held_elem (hs : list (@Handoff P)) g t w :
  hs !! g = Some (HSend t w) -> w ∈ held hs.
Proof.
  intros H. unfold held. apply list_elem_of_In, in_flat_map.
  exists (HSend t w). split; [|left; reflexivity].
  apply list_elem_of_In. eapply list_elem_of_lookup_2; eauto.
Qed.

(** X3.  In every state the dispatcher reaches, a worker's task channel
    is in the registry or in the hands of a handoff goroutine at most
    once, so at most [n] channels are out; a handoff goroutine that
    holds a channel holds that of a worker waiting at its select (or
    gone through its stop case), never that of a worker inside [Do];
    and every worker waiting at its select has its channel out. *)
Theorem worker_channel_out_once (n : Z) (w0 : W) s :
  reachable (Start n w0) s ->
  NoDup (out s) /\
  length (out s) <= Z.to_nat n /\
  (forall g t w, handoffs s !! g = Some (HSend t w) ->
     exists wk, workers s !! w = Some wk /\ parked (pc wk) = true) /\
  (forall w wk, workers s !! w = Some wk -> pc wk = WSelect -> w ∈ out s).
Proof.
  intros Hr.
  destruct (reachable_inv _ _ _ Hr) as ((Hl & _) & (Hnd & H5 & H6) & _).
  split; [exact Hnd|split; [|split; [|exact H6]]].
  - apply NoDup_below_length; [exact Hnd|].
    intros w Hw. destruct (H5 w Hw) as (wk & Hwk & _).
    rewrite <- Hl. eapply lookup_lt_Some; eauto.
  - intros g t w Hg. apply H5. unfold out. apply elem_of_app. right.
    eapply held_elem; eauto.
Qed.

(** *** The wait group *)


(** *** After the stop *)

Lemma sent_app (l1 l2 : list (Action P)) : sent (l1 ++ l2) = sent l1 ++ sent l2.
Proof.
  unfold sent. rewrite <- map_app. f_equal.
  induction l1 as [|a l1 IH]; simpl; [reflexivity|].
  destruct a; simpl; rewrite ?IH; reflexivity.
Qed.

Lemma step_stopped_intake a s s' :
  router s <> RSelect -> step a s = Some s' ->
  router s' <> RSelect /\ buf (tasks s') = buf (tasks s) ++ sent [a].
Proof.
  intros Hne H.
  destruct a; inv_step H; simpl; rewrite ?app_nil_r; try congruence;
    (split;
     [first [assumption | discriminate | apply stop_from_not_select]
     |reflexivity]).
Qed.

Lemma run_stopped_intake (sched : list (Action P)) s s' :
  router s <> RSelect -> run sched s = Some s' ->
  router s' <> RSelect /\ buf (tasks s') = buf (tasks s) ++ sent sched.
Proof.
  revert s. induction sched as [|a sched IH]; intros s Hne Hr; simpl in Hr.
  - injection Hr as <-. unfold sent. simpl. rewrite app_nil_r. auto.
  - destruct (step a s) as [s1|] eqn:E; [|discriminate].
    destruct (step_stopped_intake _ _ _ Hne E) as [Hne1 E1].
    destruct (IH s1 Hne1 Hr) as [Hne' E'].
    split; [exact Hne'|].
    rewrite E', E1, <- app_assoc, <- sent_app. reflexivity.
Qed.

(** X5.  Once [Dispatcher.Stop] has returned, nothing is ever taken from
    the intake again: whatever happens next, the intake holds what it
    held, followed by the tasks dispatched since, in order.  Tasks
    dispatched after the stop, or still waiting at it, are never
    routed. *)
Theorem stopped_intake_never_drained
  (n : Z) (w0 : W) s (sched : list (Action P)) s' :
  reachable (Start n w0) s ->
  stopCall s = SReturned ->
  run sched s = Some s' ->
  buf (tasks s') = buf (tasks s) ++ sent sched.
Proof.
  intros Hr Hs Hrun.
  destruct (reachable_inv _ _ _ Hr) as (_ & _ & (_ & H2 & _)).
  apply (run_stopped_intake sched s s'); [|exact Hrun].
  apply H2. exact Hs.
Qed.

(** *** First in, first out *)

Lemma step_fifo a s s' :
  step a s = Some s' ->
  exists taken, buf (tasks s) ++ sent [a] = taken ++ buf (tasks s').
Proof.
  intros H.
  destruct a; inv_step H; simpl; unfold sent; simpl; rewrite ?app_nil_r;
    try (exists []; reflexivity).
  exists [t]. reflexivity.
Qed.

Lemma run_fifo (sched : list (Action P)) s s' :
  run sched s = Some s' ->
  exists taken, buf (tasks s) ++ sent sched = taken ++ buf (tasks s').
Proof.
  revert s. induction sched as [|a sched IH]; intros s Hr; simpl in Hr.
  - injection Hr as <-. exists []. unfold sent. simpl. apply app_nil_r.
  - destruct (step a s) as [s1|] eqn:E; [|discriminate].
    destruct (step_fifo _ _ _ E) as [tk1 E1].
    destruct (IH s1 Hr) as [tk E2].
    exists (tk1 ++ tk).
    change (a :: sched) with ([a] ++ sched).
    rewrite sent_app, app_assoc, E1, <- !app_assoc, E2. reflexivity.
Qed.

(** X6.  Tasks leave the intake in the order of the [Dispatch] calls:
    at any time the intake holds, in order, the latest of the tasks sent
    since [Start], and the routing goroutine has taken the ones sent
    before them. *)
Theorem intake_first_in_first_out
  (n : Z) (w0 : W) (sched : list (Action P)) s :
  run sched (Start n w0) = Some s ->
  exists taken, sent sched = taken ++ buf (tasks s).
Proof. intros Hr. apply (run_fifo sched _ s Hr). Qed.


(** *** Shutdown *)

Lemma ahead_ok_update r ws w wk wk' :
  ws !! w = Some wk ->
  stopped (pc wk') = stopped (pc wk) ->
  ahead_ok r ws -> ahead_ok r (<[w := wk']> ws).
Proof.
  intros Hw Hst. destruct r as [|i|i|]; simpl; auto;
    intros H j jk Hj [(-> & <- & _)|(? & ?)]%list_lookup_insert_Some;
    try (rewrite Hst); eauto.
Qed.

Lemma stop_from_ahead i s :
  (forall j wk, i <= j -> workers s !! j = Some wk -> stopped (pc wk) = false) ->
  ahead_ok (stop_from i s) (workers s).
Proof.
  intros H. unfold stop_from. destruct (_ <? _); simpl; auto.
Qed.

Ltac same_stopped :=
  simpl;
  match goal with
  | Hp : pc ?wk = _ |- context [pc ?wk] => rewrite Hp
  end; reflexivity.

Lemma step_ahead a s s' :
  stop_inv s -> ahead_inv s -> step a s = Some s' -> ahead_inv s'.
Proof.
  unfold stop_inv, ahead_inv. intros (_ & _ & Hro) HA H.
  destruct a; inv_step H; simpl;
    repeat match goal with E : router s = _ |- _ => rewrite E in * end;
    try exact HA.
  - (* AStopRouter *)
    apply stop_from_ahead. intros j wk _ Hj. eapply Hro; eauto.
  - (* AHand *) eapply ahead_ok_update; [eassumption| |exact HA]. same_stopped.
  - (* AAdd *) eapply ahead_ok_update; [eassumption| |exact HA]. same_stopped.
  - (* APublish *) eapply ahead_ok_update; [eassumption| |exact HA]. same_stopped.
  - (* ADo *) eapply ahead_ok_update; [eassumption| |exact HA]. same_stopped.
  - (* AStopWorker *)
    simpl in *. intros j jk Hj [(-> & _)|(? & ?)]%list_lookup_insert_Some; [lia|].
    eapply HA; [|eassumption]. lia.
  - (* ADone *) eapply ahead_ok_update; [eassumption| |exact HA]. same_stopped.
  - (* AWaited *)
    apply stop_from_ahead. simpl in HA. intros j jk Hj Hjk.
    eapply HA; [|eassumption]. lia.
Qed.

Lemma reachable_ahead (n : Z) (w0 : W) s :
  reachable (Start n w0) s -> stop_inv s /\ ahead_inv s.
Proof.
  intros [sched H].
  eapply (run_invariant (fun s => stop_inv s /\ ahead_inv s)); [| |exact H].
  - intros a s1 s2 [H1 H2] Hs. split.
    + eapply step_stop; eauto.
    + eapply step_ahead; eauto.
  - split; [apply Start_stop|exact I].
Qed.

Lemma run_reachable (s0 s s' : State P W) (sched : list (Action P)) :
  reachable s0 s -> run sched s = Some s' -> reachable s0 s'.
Proof.
  intros [pre Hpre] Hr. exists (pre ++ sched). rewrite run_app, Hpre. exact Hr.
Qed.

Lemma called_stays_called a s s' :
  step a s = Some s' -> stopCall s <> SIdle -> stopCall s' <> SIdle.
Proof. intros H Hs. destruct a; inv_step H; simpl; congruence. Qed.

Lemma run_called (sched : list (Action P)) s s' :
  run sched s = Some s' -> stopCall s <> SIdle -> stopCall s' <> SIdle.
Proof.
  revert s. induction sched as [|a sched IH]; intros s Hr Hs; simpl in Hr.
  - congruence.
  - destruct (step a s) as [s1|] eqn:E; [|discriminate].
    eapply IH; eauto. eapply called_stays_called; eauto.
Qed.

(** At rest after [Stop] was called: the routing goroutine has returned. *)
Lemma rest_after_stop (n : nat) s :
  inv n s -> ahead_inv s -> n <= 200 ->
  stopCall s <> SIdle -> quiescent s = true ->
  router s = RDone.
Proof.
  intros HI HA Hn Hs Hq.
  pose proof HI as (Hsh & _ & (Hw & Hsr & Hro)).
  unfold ahead_inv in HA.
  destruct (router s) as [|i|i|] eqn:Hr; [| | |reflexivity]; exfalso.
  - (* at the select: the stop signal is waiting *)
    assert (E : step AStopRouter s = None)
      by (apply quiescent_blocked; auto; apply candidate_router; simpl; auto).
    unfold step in E. rewrite Hr in E.
    destruct (stopCall s) eqn:Hc; try congruence.
    assert (RSelect <> RSelect) by (apply Hsr; reflexivity). congruence.
  - (* about to stop worker i, which is still running *)
    simpl in Hro, HA. destruct Hro as [Hlt _].
    destruct (lookup_lt_is_Some_2 _ _ Hlt) as [wk Hwk].
    pose proof (HA i wk (le_n _) Hwk) as Hns.
    destruct (pc wk) eqn:Hp; try discriminate Hns.
    + assert (E : step (AAdd i) s = None)
        by (apply quiescent_blocked; auto; eapply candidate_worker; simpl; eauto).
      unfold step in E. rewrite Hwk, Hp in E. discriminate.
    + assert (E : step (APublish i) s = None)
        by (apply quiescent_blocked; auto; eapply candidate_worker; simpl; eauto).
      destruct (publish_enabled n s i wk HI Hn Hwk Hp) as [x Hx]. congruence.
    + assert (E : step AStopWorker s = None)
        by (apply quiescent_blocked; auto; apply candidate_router; simpl; auto).
      unfold step in E. rewrite Hr, Hwk, Hp in E. discriminate.
    + assert (E : step (ADo i) s = None)
        by (apply quiescent_blocked; auto; eapply candidate_worker; simpl; eauto).
      unfold step in E. rewrite Hwk, Hp in E. destruct (Do t (wl s)). discriminate.
  - (* waiting for worker i, which has been told *)
    simpl in Hro. destruct Hro as (Hlt & _ & Hst).
    destruct (lookup_lt_is_Some_2 _ _ Hlt) as [wk Hwk].
    specialize (Hst wk Hwk). pose proof (Hw _ _ Hwk) as Hwait.
    destruct (pc wk) eqn:Hp; try discriminate Hst.
    + assert (E : step (ADone i) s = None)
        by (apply quiescent_blocked; auto; eapply candidate_worker; simpl; eauto).
      unfold step in E. rewrite Hwk, Hp in E. discriminate.
    + assert (E : step AWaited s = None)
        by (apply quiescent_blocked; auto; apply candidate_router; simpl; auto).
      unfold step in E. rewrite Hr, Hwk, Hwait in E. discriminate.
Qed.

(** X7.  With at most 200 workers, a shutdown cannot get stuck, provided
    every [Do] returns: once [Stop] has been called, the goroutines can
    run to rest from any state, and whenever they are at rest [Stop]
    has returned, the routing goroutine has returned and every worker
    has left its loop. *)
Theorem shutdown_completes (n : Z) (w0 : W) s :
  (n <= 200)%Z ->
  reachable (Start n w0) s ->
  stopCall s <> SIdle ->
  (exists more s',
      forallb internal more = true /\ run more s = Some s' /\
      quiescent s' = true) /\
  (forall more s',
      run more s = Some s' -> quiescent s' = true ->
      stopCall s' = SReturned /\ router s' = RDone /\ all_exited s' = true).
Proof.
  intros Hn Hr Hs. split; [apply drains|].
  intros more s' Hm Hq.
  pose proof (run_reachable _ _ _ _ Hr Hm) as Hr'.
  pose proof (reachable_inv _ _ _ Hr') as HI.
  destruct (reachable_ahead _ _ _ Hr') as [_ HA].
  assert (Hd : router s' = RDone).
  { apply (rest_after_stop (Z.to_nat n)); auto; [lia|].
    eapply run_called; eauto. }
  destruct HI as (_ & _ & (_ & Hsr & Hro)).
  split; [apply Hsr; rewrite Hd; discriminate|split; [exact Hd|]].
  rewrite Hd in Hro. simpl in Hro. apply all_exited_spec.
  intros w wk Hw. eapply Hro; eauto. eapply lookup_lt_Some; eauto.
Qed.





End DispatcherMore.

Section TestWorkloadMore.

Import dispatcher.

Implicit Types (s : State TestPayload testWorkload) (a : Action TestPayload).

Lemma account_pending s :
  account s = map task_name (pending s) ++ seenTasks (wl s).
Proof.
  unfold account, pending. rewrite !map_app, <- !app_assoc.
  f_equal. f_equal.
  - induction (handoffs s) as [|h hs IH]; simpl; [reflexivity|].
    rewrite IH. reflexivity.
  - f_equal. induction (workers s) as [|w ws IH]; simpl; [reflexivity|].
    rewrite map_app, IH. reflexivity.
Qed.

Lemma Start_account (n : Z) : account (Start n fresh_workload) = [].
Proof.
  unfold account, Start. simpl. rewrite app_nil_r.
  apply flat_map_all_nil. intros i wk H.
  apply list_lookup_fmap_Some in H as (j & -> & _). reflexivity.
Qed.

(** X9.  With the workload of the test and any number of workers, along
    any schedule (dispatches, stop and all): the tasks waiting in the
    intake, held by handoff goroutines or inside [Do], together with
    the tasks seen by [Do], are the payloads dispatched, each as many
    times as it was dispatched; [doCalled] is the length of
    [seenTasks]; pending tasks and calls of [Do] add up to the
    dispatches; and no task is seen twice unless it was dispatched
    twice. *)
Theorem payloads_conserved (n : Z) (sched : list (Action TestPayload)) s :
  run sched (Start n fresh_workload) = Some s ->
  map task_name (pending s) ++ seenTasks (wl s)
    ≡ₚ map seen_as (dispatched sched) /\
  doCalled (wl s) = length (seenTasks (wl s)) /\
  length (pending s) + doCalled (wl s) = length (dispatched sched) /\
  (NoDup (map seen_as (dispatched sched)) -> NoDup (seenTasks (wl s))).
Proof.
  intros Hr.
  pose proof (run_account _ _ _ Hr) as E.
  rewrite Start_account, account_pending in E. simpl in E.
  assert (Hcount : doCalled (wl s) = length (seenTasks (wl s))).
  { revert Hr. apply (run_invariant
      (fun s => doCalled (wl s) = length (seenTasks (wl s)))); [|reflexivity].
    intros a s1 s2 H1 H2. eapply step_doCalled; eauto. }
  split; [exact E|split; [exact Hcount|split]].
  - apply Permutation_length in E.
    rewrite length_app, !length_map in E. lia.
  - intros Hnd. rewrite <- E in Hnd. apply NoDup_app in Hnd. apply Hnd.
Qed.

(** A fresh dispatcher accepts a task. *)
Lemma intake_blocks_at_2000_witness :
  is_Some (step (ADispatch (payload 0)) (Start 20 fresh_workload)).
Proof.
  apply (intake_blocks_at_2000 20 fresh_workload _ (payload 0)).
  - exists []. reflexivity.
  - simpl. lia.
Defined.

(** Two workers started: four steps taken, nine to go at most. *)
Lemma goroutine_steps_bounded_witness :
  exists s,
    run (boot 2) (Start 2 fresh_workload) = Some s /\
    work (boot 2) + potential s <= 13.
Proof.
  assert (E : exists s, run (boot 2) (Start 2 fresh_workload) = Some s)
    by (eexists; vm_compute; reflexivity).
  destruct E as [s Hs]. exists s. split; [exact Hs|].
  apply (goroutine_steps_bounded 2 fresh_workload (boot 2) s Hs).
Defined.

(** Two workers started: both channels are in the registry, once each. *)
Lemma worker_channel_out_once_witness :
  exists s,
    run (boot 2) (Start 2 fresh_workload) = Some s /\
    NoDup (out s) /\ length (out s) <= 2.
Proof.
  assert (E : exists s, run (boot 2) (Start 2 fresh_workload) = Some s)
    by (eexists; vm_compute; reflexivity).
  destruct E as [s Hs]. exists s. split; [exact Hs|].
  destruct (worker_channel_out_once 2 fresh_workload s
              (ex_intro _ (boot 2) Hs)) as (H1 & H2 & _).
  split; [exact H1|exact H2].
Defined.


(** A task dispatched after the stop stays in the intake. *)
Lemma stopped_intake_never_drained_witness :
  exists s s',
    run stop_early (Start 20 fresh_workload) = Some s /\
    run [ADispatch (payload 1)] s = Some s' /\
    buf (tasks s') = buf (tasks s) ++ sent [ADispatch (payload 1)].
Proof.
  assert (E : exists s s',
             run stop_early (Start 20 fresh_workload) = Some s /\
             stopCall s = SReturned /\
             run [ADispatch (payload 1)] s = Some s').
  { eexists _, _. split; [vm_compute; reflexivity|].
    split; vm_compute; reflexivity. }
  destruct E as (s & s' & Hs & Hc & Hs').
  exists s, s'. split; [exact Hs|split; [exact Hs'|]].
  exact (stopped_intake_never_drained 20 fresh_workload s _ s'
           (ex_intro _ _ Hs) Hc Hs').
Defined.

(** Two tasks sent, the first taken. *)
Lemma intake_first_in_first_out_witness :
  exists s taken,
    run [ADispatch (payload 0); ADispatch (payload 1); ARoute]
      (Start 2 fresh_workload) = Some s /\
    sent [ADispatch (payload 0); ADispatch (payload 1); ARoute]
    = taken ++ buf (tasks s).
Proof.
  assert (E : exists s,
             run [ADispatch (payload 0); ADispatch (payload 1); ARoute]
               (Start 2 fresh_workload) = Some s)
    by (eexists; vm_compute; reflexivity).
  destruct E as [s Hs].
  destruct (intake_first_in_first_out 2 fresh_workload _ s Hs) as [taken H].
  exists s, taken. auto.
Defined.

(** Two workers, [Stop] called and still waiting to be heard. *)
Lemma shutdown_completes_witness :
  exists s more s',
    run (boot 2 ++ [ACallStop]) (Start 2 fresh_workload) = Some s /\
    forallb internal more = true /\ run more s = Some s' /\
    quiescent s' = true.
Proof.
  assert (E : exists s,
             run (boot 2 ++ [ACallStop]) (Start 2 fresh_workload) = Some s /\
             stopCall s = SSending).
  { eexists. split; vm_compute; reflexivity. }
  destruct E as (s & Hs & Hc).
  destruct (shutdown_completes 2 fresh_workload s) as [(more & s' & H) _].
  - lia.
  - exists (boot 2 ++ [ACallStop]). exact Hs.
  - rewrite Hc. discriminate.
  - exists s, more, s'. split; [exact Hs|exact H].
Defined.


(** One payload served by the first of two workers. *)
Lemma payloads_conserved_witness :
  exists s,
    run (boot 2 ++ serve (payload 0) 0) (Start 2 fresh_workload) = Some s /\
    length (pending s) + doCalled (wl s) = 1.
Proof.
  assert (E : exists s,
             run (boot 2 ++ serve (payload 0) 0) (Start 2 fresh_workload) = Some s /\
             length (dispatched (boot 2 ++ serve (payload 0) 0)) = 1).
  { eexists. split; vm_compute; reflexivity. }
  destruct E as (s & Hs & Hl). exists s. split; [exact Hs|].
  rewrite <- Hl. apply (payloads_conserved 2 _ s Hs).
Defined.

End TestWorkloadMore.

(** ** The queue *)

Section QueueProperties.

Import mfr.
Local Open Scope Z_scope.
Context {V : Type}.
Implicit Types (q : Queue V) (e x : Item V) (l : list (Item V)) (ops : list (Op V)).

(** *** [top] *)

Lemma top_In l e : top l = Some e -> In e l /\ released e = false.
Proof.
  induction l as [|x l IH]; simpl; [discriminate|].
  destruct (released x) eqn:Hx.
  - intros H. destruct (IH H). auto.
  - destruct (top l) as [e'|] eqn:Ht.
    + destruct (Hits x <? Hits e').
      * intros H. injection H as <-. destruct (IH eq_refl). auto.
      * intros H. injection H as <-. auto.
    + intros H. injection H as <-. auto.
Qed.

Lemma top_max l e :
  top l = Some e ->
  forall x, In x l -> released x = false -> (Hits x <= Hits e).
Proof.
  revert e. induction l as [|y l IH]; simpl; [discriminate|].
  intros e. destruct (released y) eqn:Hy.
  - intros H x [<-|Hx] Hr; [congruence|]. eapply IH; eauto.
  - destruct (top l) as [e'|] eqn:Ht.
    + destruct (Hits y <? Hits e') eqn:Hc.
      * intros H. injection H as <-. apply Z.ltb_lt in Hc.
        intros x [<-|Hx] Hr; [lia|]. eapply IH; eauto.
      * intros H. injection H as <-. apply Z.ltb_ge in Hc.
        intros x [<-|Hx] Hr; [lia|]. specialize (IH e' eq_refl x Hx Hr). lia.
    + intros H. injection H as <-.
      intros x [<-|Hx] Hr; [lia|]. exfalso.
      clear IH. induction l as [|z l IHl]; [destruct Hx|].
      simpl in Ht. destruct (released z) eqn:Hz.
      * destruct Hx as [<-|Hx]; [congruence|]. auto.
      * destruct (top l) as [t|]; [destruct (Hits z <? Hits t)|]; discriminate.
Qed.

Lemma top_None l :
  top l = None <-> forall x, In x l -> released x = true.
Proof.
  induction l as [|y l IH]; simpl.
  - split; [intros _ x []|reflexivity].
  - destruct (released y) eqn:Hy.
    + rewrite IH. split.
      * intros H x [<-|Hx]; auto.
      * intros H x Hx. apply H. right. exact Hx.
    + split.
      * destruct (top l) as [t|]; [destruct (Hits y <? Hits t)|]; discriminate.
      * intros H. specialize (H y (or_introl eq_refl)). congruence.
Qed.

Lemma top_head e l :
  released e = false ->
  (forall x, In x l -> released x = false -> (Hits x <= Hits e)) ->
  top (e :: l) = Some e.
Proof.
  intros He H. simpl. rewrite He.
  destruct (top l) as [t|] eqn:Ht; [|reflexivity].
  destruct (top_In _ _ Ht) as [Hin Hr].
  specialize (H t Hin Hr).
  destruct (Hits e <? Hits t) eqn:Hc; [|reflexivity].
  apply Z.ltb_lt in Hc. lia.
Qed.

Lemma top_skip x l e :
  released x = true \/ (Hits x < Hits e) ->
  top l = Some e -> top (x :: l) = Some e.
Proof.
  intros H Ht. simpl. rewrite Ht.
  destruct (released x); [reflexivity|].
  destruct H as [H|H]; [discriminate|].
  apply Z.ltb_lt in H. rewrite H. reflexivity.
Qed.

(** The first of the highest entries wins. *)
Lemma top_first_max pre e post :
  released e = false ->
  (forall x, In x pre -> released x = false -> (Hits x < Hits e)) ->
  (forall x, In x post -> released x = false -> (Hits x <= Hits e)) ->
  top (pre ++ e :: post) = Some e.
Proof.
  intros He Hpre Hpost. induction pre as [|x pre IH]; simpl app.
  - apply top_head; assumption.
  - apply top_skip.
    + destruct (released x) eqn:Hx; [left; reflexivity|right].
      apply Hpre; [left; reflexivity|exact Hx].
    + apply IH. intros y Hy. apply Hpre. right. exact Hy.
Qed.

(** *** Removing and updating by key *)

Lemma In_remove_key k l x :
  In x (remove_key k l) <-> In x l /\ key x <> k.
Proof.
  unfold remove_key. rewrite filter_In, negb_true_iff, String.eqb_neq.
  reflexivity.
Qed.

Lemma remove_key_absent k l :
  (forall x, In x l -> key x <> k) -> remove_key k l = l.
Proof.
  induction l as [|y l IH]; intros H; [reflexivity|].
  unfold remove_key in *. simpl.
  destruct (String.eqb_spec (key y) k) as [E|E]; simpl.
  - exfalso. apply (H y); [left; reflexivity|exact E].
  - f_equal. apply IH. intros x Hx. apply H. right. exact Hx.
Qed.

Lemma remove_key_app k l1 l2 :
  remove_key k (l1 ++ l2) = remove_key k l1 ++ remove_key k l2.
Proof. unfold remove_key. apply List.filter_app. Qed.

Lemma update_key_absent (f : Item V -> Item V) k l :
  (forall x, In x l -> key x <> k) -> update_key f k l = l.
Proof.
  induction l as [|y l IH]; intros H; [reflexivity|].
  unfold update_key in *. simpl.
  destruct (String.eqb_spec (key y) k) as [E|E].
  - exfalso. apply (H y); [left; reflexivity|exact E].
  - f_equal. apply IH. intros x Hx. apply H. right. exact Hx.
Qed.

Lemma has_key_In k l :
  has_key k l = true <-> exists x, In x l /\ key x = k.
Proof.
  unfold has_key. rewrite existsb_exists.
  split; intros (x & Hx & E); exists x; split; auto;
    apply String.eqb_eq; exact E.
Qed.

Lemma keys_update_key (f : Item V -> Item V) k l :
  (forall x, key (f x) = key x) ->
  map key (update_key f k l) = map key l.
Proof.
  intros Hf. unfold update_key. rewrite map_map. apply map_ext.
  intros x. destruct (String.eqb (key x) k); auto.
Qed.

(** *** [Pop] *)

Lemma In_update_key (f : Item V -> Item V) k l x :
  In x (update_key f k l) <->
  exists y, In y l /\ x = if String.eqb (key y) k then f y else y.
Proof.
  unfold update_key. rewrite in_map_iff.
  split; intros (y & H1 & H2); exists y; auto.
Qed.

Lemma In_update_other (f : Item V -> Item V) k l x :
  In x l -> key x <> k -> In x (update_key f k l).
Proof.
  intros Hx Hk. apply In_update_key. exists x. split; [exact Hx|].
  apply String.eqb_neq in Hk. rewrite Hk. reflexivity.
Qed.

Lemma In_update_marked k l x :
  In x (update_key mark_released k l) -> released x = false ->
  In x l /\ key x <> k.
Proof.
  intros Hx Hr. apply In_update_key in Hx as (y & Hy & ->).
  destruct (String.eqb_spec (key y) k) as [E|E]; [discriminate Hr|auto].
Qed.

Lemma In_queued q x : In x (queued q) <-> In x (entries q) /\ released x = false.
Proof. unfold queued. rewrite filter_In, negb_true_iff. reflexivity. Qed.

(** At most one entry per key. *)
Lemma same_key l x y :
  List.NoDup (map key l) -> In x l -> In y l -> key x = key y -> x = y.
Proof.
  induction l as [|z l IH]; simpl; intros Hnd Hx Hy E; [destruct Hx|].
  inversion Hnd as [|? ? Hni Hnd']; subst.
  destruct Hx as [<-|Hx], Hy as [<-|Hy]; auto.
  - exfalso. apply Hni. rewrite E. apply in_map. exact Hy.
  - exfalso. apply Hni. rewrite <- E. apply in_map. exact Hx.
Qed.

Lemma requeue_marked e : released e = false -> requeue (mark_released e) = e.
Proof. destruct e as [k v h r]. simpl. intros ->. reflexivity. Qed.

(** Marking the entry of a key and returning it to the view leaves the
    entries as they were. *)
Lemma update_key_requeue_marked l e :
  List.NoDup (map key l) -> In e l -> released e = false ->
  update_key requeue (key e) (update_key mark_released (key e) l) = l.
Proof.
  intros Hnd Hin Hr. unfold update_key. rewrite map_map.
  rewrite <- (map_id l) at 2. apply map_ext_in. intros y Hy.
  destruct (String.eqb_spec (key y) (key e)) as [E|E].
  - simpl. apply String.eqb_eq in E as E'. rewrite E'.
    assert (y = e) as -> by (eapply same_key; eauto).
    apply requeue_marked. exact Hr.
  - apply String.eqb_neq in E. rewrite E. reflexivity.
Qed.

Lemma Pop_Some q e q' :
  Pop q = (Some e, q') ->
  top (entries q) = Some e /\
  q' = {| entries := update_key mark_released (key e) (entries q);
          hits := hits q |}.
Proof.
  unfold Pop. destruct (top (entries q)) as [t|]; intros H; inversion H; auto.
Qed.

Lemma Pop_spec q e q' :
  Pop q = (Some e, q') ->
  In e (entries q) /\ released e = false /\
  (forall x, In x (entries q) -> released x = false -> (Hits x <= Hits e)) /\
  (forall x, In x (queued q') <-> In x (queued q) /\ key x <> key e) /\
  hits q' = hits q.
Proof.
  intros H. apply Pop_Some in H as [Ht ->].
  destruct (top_In _ _ Ht) as [Hin Hr].
  split; [exact Hin|split; [exact Hr|split; [|split; [|reflexivity]]]].
  - apply top_max. exact Ht.
  - intros x. rewrite !In_queued. simpl. split.
    + intros [Hx Hrx]. destruct (In_update_marked _ _ _ Hx Hrx). auto.
    + intros [[Hx Hrx] Hk]. split; [|exact Hrx].
      apply In_update_other; assumption.
Qed.

Lemma Pop_then_Pop q e q' e2 q2 :
  Pop q = (Some e, q') -> Pop q' = (Some e2, q2) -> (Hits e2 <= Hits e).
Proof.
  intros H1 H2.
  destruct (Pop_spec _ _ _ H1) as (_ & _ & Hmax & Hrem & _).
  destruct (Pop_spec _ _ _ H2) as (Hin & Hr & _).
  assert (Hq : In e2 (queued q')) by (apply In_queued; auto).
  apply Hrem in Hq as [Hq _]. apply In_queued in Hq as [Hq _].
  apply Hmax; assumption.
Qed.

Lemma Pop_empty q : entries q = [] -> Pop q = (None, q).
Proof. unfold Pop. intros ->. reflexivity. Qed.

(** An entry that carries the marker does not count for [top]. *)
Lemma top_remove_released k l :
  (forall x, In x l -> key x = k -> released x = true) ->
  top (remove_key k l) = top l.
Proof.
  induction l as [|y l IH]; intros H; [reflexivity|].
  unfold remove_key in *. simpl.
  assert (IH' : top (List.filter (fun e => negb (String.eqb (key e) k)) l) = top l).
  { apply IH. intros x Hx. apply H. right. exact Hx. }
  destruct (String.eqb_spec (key y) k) as [E|E]; simpl.
  - rewrite (H y (or_introl eq_refl) E). exact IH'.
  - rewrite IH'. reflexivity.
Qed.



(** *** Sequences of producer calls *)

Lemma queue_run_app ops1 ops2 q : run (ops1 ++ ops2) q = run ops2 (run ops1 q).
Proof. unfold run. apply fold_left_app. Qed.

Lemma hits_of_app k ops1 ops2 :
  hits_of k (ops1 ++ ops2) = hits_of k ops1 + hits_of k ops2.
Proof.
  induction ops1 as [|o ops1 IH]; simpl; [reflexivity|].
  destruct o; auto. rewrite IH. lia.
Qed.

Lemma hits_of_nonneg k ops : 0 <= hits_of k ops.
Proof.
  induction ops as [|o ops IH]; simpl; [lia|].
  destruct o; auto. destruct (String.eqb k0 k); lia.
Qed.

Lemma total_hits_app ops1 ops2 :
  total_hits (ops1 ++ ops2) = total_hits ops1 + total_hits ops2.
Proof.
  induction ops1 as [|o ops1 IH]; simpl; [reflexivity|].
  destruct o; auto. rewrite IH. lia.
Qed.

Lemma first_value_app k ops1 ops2 :
  first_value k (ops1 ++ ops2)
  = match first_value k ops1 with
    | Some v => Some v
    | None => first_value k ops2
    end.
Proof.
  induction ops1 as [|o ops1 IH]; simpl; [reflexivity|].
  destruct o; auto. destruct (String.eqb k0 k); auto.
Qed.

Lemma first_value_None k ops : hits_of k ops = 0 -> first_value k ops = None.
Proof.
  induction ops as [|o ops IH]; simpl; [reflexivity|].
  destruct o; auto. pose proof (hits_of_nonneg k ops).
  destruct (String.eqb k0 k); [lia|]. auto.
Qed.

Lemma hit_first_app k1 k2 ops1 ops2 :
  hit_first k1 k2 (ops1 ++ ops2)
  = if hits_of k1 ops1 + hits_of k2 ops1 =? 0
    then hit_first k1 k2 ops2
    else hit_first k1 k2 ops1.
Proof.
  induction ops1 as [|o ops1 IH]; simpl; [reflexivity|].
  destruct o; auto.
  rewrite IH. clear IH.
  pose proof (hits_of_nonneg k1 ops1). pose proof (hits_of_nonneg k2 ops1).
  destruct (String.eqb k k1), (String.eqb k k2);
    repeat match goal with
    | |- context [(?a =? 0)] => destruct (Z.eqb_spec a 0)
    end; try reflexivity; lia.
Qed.

Lemma has_key_false k l : has_key k l = false <-> ~ In k (map key l).
Proof.
  split.
  - intros H Hin. apply in_map_iff in Hin as (x & E & Hx).
    assert (has_key k l = true) by (apply has_key_In; eauto). congruence.
  - intros H. destruct (has_key k l) eqn:E; [|reflexivity].
    apply has_key_In in E as (x & Hx & Ek). exfalso. apply H.
    apply in_map_iff. eauto.
Qed.

Lemma has_key_keys k l l' : map key l = map key l' -> has_key k l = has_key k l'.
Proof.
  intros E. destruct (has_key k l') eqn:H'.
  - apply has_key_In in H' as (x & Hx & Ek). apply has_key_In.
    assert (Hin : In k (map key l)).
    { rewrite E. apply in_map_iff. eauto. }
    apply in_map_iff in Hin as (y & Ey & Hy). eauto.
  - apply has_key_false. rewrite E. apply has_key_false. exact H'.
Qed.

Lemma before_app k1 k2 ks more : before k1 k2 ks -> before k1 k2 (ks ++ more).
Proof.
  intros (pre & post & -> & H). exists pre, (post ++ more).
  rewrite <- app_assoc. auto.
Qed.

Lemma score_bump ops k v :
  ((score ops k + 1) mod 2 ^ 64) = score (ops ++ [OHit k v]) k.
Proof.
  unfold score. rewrite hits_of_app. simpl. rewrite String.eqb_refl.
  rewrite Zplus_mod_idemp_l. reflexivity.
Qed.

Lemma hits_of_other k k' v ops :
  k' <> k -> hits_of k (ops ++ [OHit k' v]) = hits_of k ops.
Proof.
  intros H. rewrite hits_of_app. simpl.
  apply String.eqb_neq in H. rewrite H. lia.
Qed.

Lemma first_value_other k k' v ops :
  k' <> k -> first_value k (ops ++ [OHit k' v]) = first_value k ops.
Proof.
  intros H. rewrite first_value_app. simpl.
  apply String.eqb_neq in H. rewrite H. destruct (first_value k ops); reflexivity.
Qed.

Lemma tracks_Hit ops l k v h :
  tracks ops l ->
  tracks (ops ++ [OHit k v]) (entries (Hit k v {| entries := l; hits := h |})).
Proof.
  intros (Hnd & Hent & Hhas & Hord). unfold Hit. simpl.
  destruct (has_key k l) eqn:Hk.
  - (* the key is known *)
    assert (Hkeys : map key (update_key bump k l) = map key l)
      by (apply keys_update_key; reflexivity).
    assert (Hk1 : 1 <= hits_of k ops).
    { apply has_key_In in Hk as (x & Hx & <-). apply Hent. exact Hx. }
    split; [|split; [|split]].
    + rewrite Hkeys. exact Hnd.
    + intros e' He'. unfold update_key in He'.
      apply in_map_iff in He' as (e & <- & He).
      destruct (Hent e He) as (Hr & Hh & Hv & H1).
      destruct (String.eqb_spec (key e) k) as [E|E]; simpl.
      * split; [reflexivity|split; [|split]].
        -- rewrite Hh, E. apply score_bump.
        -- rewrite first_value_app, <- Hv. reflexivity.
        -- rewrite hits_of_app.
           pose proof (hits_of_nonneg (key e) [OHit k v]). lia.
      * split; [exact Hr|split; [|split]].
        -- rewrite Hh. unfold score. rewrite hits_of_other by congruence. reflexivity.
        -- rewrite first_value_other by congruence. exact Hv.
        -- rewrite hits_of_other by congruence. exact H1.
    + intros k' Hk'. rewrite (has_key_keys _ _ _ Hkeys).
      destruct (String.eqb_spec k k') as [<-|E]; [exact Hk|].
      apply Hhas. rewrite hits_of_other in Hk' by exact E. exact Hk'.
    + intros k1 k2 Hne Hf. rewrite Hkeys. apply Hord; [exact Hne|].
      rewrite hit_first_app in Hf.
      destruct (hits_of k1 ops + hits_of k2 ops =? 0) eqn:E0; [|exact Hf].
      exfalso. apply Z.eqb_eq in E0. simpl in Hf.
      pose proof (hits_of_nonneg k2 ops).
      destruct (String.eqb_spec k k1) as [->|E1]; [lia|].
      destruct (String.eqb k k2); discriminate.
  - (* a new key *)
    assert (Hk0 : hits_of k ops = 0).
    { pose proof (hits_of_nonneg k ops).
      destruct (Z_lt_le_dec (hits_of k ops) 1) as [|Hge]; [lia|].
      rewrite (Hhas _ Hge) in Hk. discriminate. }
    pose proof (proj1 (has_key_false _ _) Hk) as Hnin.
    split; [|split; [|split]].
    + rewrite map_app. simpl.
      apply (Permutation_NoDup (Permutation_cons_append _ _)).
      constructor; assumption.
    + intros e He. apply in_app_or in He as [He|[<-|[]]].
      * destruct (Hent e He) as (Hr & Hh & Hv & H1).
        assert (Hne : k <> key e).
        { intros ->. apply Hnin. apply in_map. exact He. }
        split; [exact Hr|split; [|split]].
        -- rewrite Hh. unfold score. rewrite hits_of_other by exact Hne. reflexivity.
        -- rewrite first_value_other by exact Hne. exact Hv.
        -- rewrite hits_of_other by exact Hne. exact H1.
      * simpl. split; [reflexivity|split; [|split]].
        -- unfold score. rewrite hits_of_app, Hk0. simpl.
           rewrite String.eqb_refl. reflexivity.
        -- rewrite first_value_app, (first_value_None _ _ Hk0). simpl.
           rewrite String.eqb_refl. reflexivity.
        -- rewrite hits_of_app. simpl. rewrite String.eqb_refl. lia.
    + intros k' Hk'. unfold has_key. rewrite existsb_app. simpl.
      destruct (String.eqb_spec k k') as [<-|E].
      * rewrite orb_true_r. reflexivity.
      * rewrite hits_of_other in Hk' by exact E.
        apply Hhas in Hk'. unfold has_key in Hk'. rewrite Hk'. reflexivity.
    + intros k1 k2 Hne Hf. rewrite map_app. simpl.
      rewrite hit_first_app in Hf.
      destruct (hits_of k1 ops + hits_of k2 ops =? 0) eqn:E0.
      * apply Z.eqb_eq in E0. simpl in Hf.
        pose proof (hits_of_nonneg k1 ops).
        destruct (String.eqb_spec k k1) as [->|E1].
        -- exists (map key l), []. split; [reflexivity|].
           intros Hin. apply in_map_iff in Hin as (x & Ex & Hx).
           destruct (Hent x Hx) as (_ & _ & _ & H1). rewrite Ex in H1. lia.
        -- destruct (String.eqb k k2); discriminate.
      * apply before_app. apply Hord; assumption.
Qed.

Lemma tracks_Peek ops l : tracks ops l -> tracks (ops ++ [OPeek]) l.
Proof.
  intros (Hnd & Hent & Hhas & Hord).
  assert (Hh : forall k, hits_of k (ops ++ [OPeek]) = hits_of k ops)
    by (intros k; rewrite hits_of_app; simpl; lia).
  assert (Hv : forall k, first_value k (ops ++ [OPeek]) = first_value k ops).
  { intros k. rewrite first_value_app. simpl. destruct (first_value k ops); reflexivity. }
  split; [exact Hnd|split; [|split]].
  - intros e He. unfold score. rewrite Hh, Hv. apply Hent. exact He.
  - intros k. rewrite Hh. apply Hhas.
  - intros k1 k2 Hne Hf. apply Hord; [exact Hne|].
    rewrite hit_first_app in Hf. simpl in Hf.
    destruct (_ =? 0); [discriminate|exact Hf].
Qed.

Lemma tracks_run ops :
  forallb producer_op ops = true -> tracks ops (entries (run ops NewQueue)).
Proof.
  induction ops as [|o ops IH] using rev_ind; intros Hp.
  - simpl. split; [constructor|split; [|split]].
    + intros e [].
    + simpl. lia.
    + simpl. discriminate.
  - rewrite forallb_app in Hp. apply andb_prop in Hp as [Hp Ho].
    specialize (IH Hp). rewrite queue_run_app. simpl.
    destruct o; simpl in Ho; try discriminate.
    + destruct (run ops NewQueue) as [l h]. apply tracks_Hit. exact IH.
    + apply tracks_Peek. exact IH.
Qed.

Lemma NoDup_keys_remove k l :
  List.NoDup (map key l) -> List.NoDup (map key (remove_key k l)).
Proof.
  induction l as [|x l IH]; simpl; intros H; [constructor|].
  inversion H as [|? ? Hni Hnd]; subst.
  unfold remove_key in *. simpl.
  destruct (negb (String.eqb (key x) k)); simpl; [|auto].
  constructor; [|auto].
  intros Hin. apply Hni. apply in_map_iff in Hin as (y & Ey & Hy).
  apply filter_In in Hy as [Hy _]. apply in_map_iff. eauto.
Qed.

(** Every operation keeps one entry per key. *)
Lemma NoDup_keys_apply (o : Op V) q :
  List.NoDup (map key (entries q)) ->
  List.NoDup (map key (entries (apply o q))).
Proof.
  intros Hnd. destruct o as [k v| | |k|k]; simpl.
  - destruct (has_key k (entries q)) eqn:Hk.
    + rewrite keys_update_key by reflexivity. exact Hnd.
    + rewrite map_app. simpl.
      apply (Permutation_NoDup (Permutation_cons_append _ _)).
      constructor; [|exact Hnd]. apply has_key_false. exact Hk.
  - exact Hnd.
  - unfold Pop. destruct (top (entries q)); simpl; [|exact Hnd].
    rewrite keys_update_key by reflexivity. exact Hnd.
  - rewrite keys_update_key by reflexivity. exact Hnd.
  - apply NoDup_keys_remove. exact Hnd.
Qed.

Lemma NoDup_keys_run ops q :
  List.NoDup (map key (entries q)) ->
  List.NoDup (map key (entries (run ops q))).
Proof.
  revert q. induction ops as [|o ops IH]; intros q Hnd; [exact Hnd|].
  apply (IH (apply o q)). apply NoDup_keys_apply. exact Hnd.
Qed.

(** An entry whose count is above that of every other entry of the view
    is the top. *)
Lemma top_unique_max l e :
  List.NoDup (map key l) -> In e l -> released e = false ->
  (forall x, In x l -> released x = false -> key x <> key e ->
             (Hits x < Hits e)) ->
  top l = Some e.
Proof.
  intros Hnd Hin Hr Hlt.
  apply in_split in Hin as (A & B & ->).
  rewrite map_app in Hnd. simpl in Hnd.
  pose proof (NoDup_remove_2 _ _ _ Hnd) as Hni.
  apply top_first_max; [exact Hr| |].
  - intros x Hx Hrx. apply Hlt; [|exact Hrx|].
    + apply in_or_app. left. exact Hx.
    + intros E. apply Hni. apply in_or_app. left. rewrite <- E. apply in_map. exact Hx.
  - intros x Hx Hrx. apply Z.lt_le_incl. apply Hlt; [|exact Hrx|].
    + apply in_or_app. right. right. exact Hx.
    + intros E. apply Hni. apply in_or_app. right. rewrite <- E. apply in_map. exact Hx.
Qed.

Lemma Pop_top q e :
  top (entries q) = Some e ->
  Pop q = (Some e, {| entries := update_key mark_released (key e) (entries q);
                      hits := hits q |}).
Proof. unfold Pop. intros ->. reflexivity. Qed.


Lemma pinned_swap u1 u2 u3 m m3 ops :
  pinned_workload u1 u2 u3 m m3 ops -> pinned_workload u2 u1 u3 m m3 ops.
Proof.
  intros (Hp & N12 & N13 & N23 & E1 & E2 & E3 & Ho).
  repeat split; auto.
Qed.

Section Pinned.

Variables (u1 u2 u3 : string) (m m3 : Z) (ops : list (Op V)).
Hypothesis Hwork : pinned_workload u1 u2 u3 m m3 ops.
Hypothesis Hm3 : 1 < m3.
Hypothesis Hm : m3 < m.
Hypothesis Hbound : m < 2 ^ 64.

Let L := entries (run ops NewQueue).

Lemma pinned_tracks : tracks ops L.
Proof. apply tracks_run. apply Hwork. Qed.

Lemma pinned_Hits e :
  In e L ->
  (key e = u1 /\ Hits e = m) \/
  (key e = u2 /\ Hits e = m) \/
  (key e = u3 /\ Hits e = m3) \/
  (key e <> u1 /\ key e <> u2 /\ key e <> u3 /\ Hits e = 1).
Proof.
  intros He. destruct pinned_tracks as (_ & Hent & _).
  destruct (Hent e He) as (_ & Hh & _ & H1).
  destruct Hwork as (_ & _ & _ & _ & E1 & E2 & E3 & Hother).
  unfold score in Hh.
  destruct (String.eqb_spec (key e) u1) as [K1|K1].
  { left. split; [exact K1|]. rewrite Hh, K1, E1. apply Z.mod_small. lia. }
  destruct (String.eqb_spec (key e) u2) as [K2|K2].
  { right; left. split; [exact K2|]. rewrite Hh, K2, E2. apply Z.mod_small. lia. }
  destruct (String.eqb_spec (key e) u3) as [K3|K3].
  { right; right; left. split; [exact K3|]. rewrite Hh, K3, E3.
    apply Z.mod_small. lia. }
  right; right; right. repeat split; try assumption.
  specialize (Hother _ K1 K2 K3).
  replace (hits_of (key e) ops) with 1 in Hh by lia. exact Hh.
Qed.

Lemma pinned_item k n :
  hits_of k ops = n -> 1 <= n -> n < 2 ^ 64 ->
  exists e, In e L /\ released e = false /\ item_for k n ops e.
Proof.
  intros Hk Hn Hb. destruct pinned_tracks as (_ & Hent & Hhas & _).
  assert (H : has_key k L = true) by (apply Hhas; lia).
  apply has_key_In in H as (e & He & Ek).
  destruct (Hent e He) as (Hr & Hh & Hv & _).
  exists e. split; [exact He|split; [exact Hr|]].
  unfold item_for. rewrite Ek in *. split; [reflexivity|split; [|exact Hv]].
  rewrite Hh. unfold score. rewrite Hk. apply Z.mod_small. lia.
Qed.

(** When [u1] is hit before [u2], the pops return [u1], [u2], [u3]. *)
Lemma pops_pinned :
  hit_first u1 u2 ops = true ->
  exists e1 e2 e3 q1 q2 q3,
    Pop (run ops NewQueue) = (Some e1, q1) /\
    Pop q1 = (Some e2, q2) /\
    Pop q2 = (Some e3, q3) /\
    item_for u1 m ops e1 /\ item_for u2 m ops e2 /\ item_for u3 m3 ops e3.
Proof.
  intros Hfirst.
  pose proof pinned_tracks as (Hnd & Hent & Hhas & Hord).
  pose proof Hwork as (_ & N12 & N13 & N23 & E1 & E2 & E3 & _).
  destruct (pinned_item u1 m E1) as (e1 & In1 & R1 & I1); [lia|lia|].
  destruct (pinned_item u2 m E2) as (e2 & In2 & R2 & I2); [lia|lia|].
  destruct (pinned_item u3 m3 E3) as (e3 & In3 & R3 & I3); [lia|lia|].
  pose proof I1 as (K1 & H1 & _). pose proof I2 as (K2 & H2 & _).
  pose proof I3 as (K3 & H3 & _).
  (* first pop: the order of insertion decides between u1 and u2 *)
  assert (T1 : top L = Some e1).
  { destruct (Hord u1 u2 N12 Hfirst) as (pre & post & Ekeys & Hni).
    pose proof Ekeys as Ekeys'.
    apply map_eq_app in Ekeys as (Lpre & Lrest & EL & Epre & Erest).
    apply map_eq_cons in Erest as (x & Lpost & -> & Kx & Epost).
    assert (x = e1) as ->.
    { rewrite EL in In1. fold L in Hnd. rewrite Ekeys' in Hnd.
      pose proof (NoDup_remove_2 _ _ _ Hnd) as Hni1.
      apply in_app_or in In1 as [Hin|[E|Hin]]; [|exact E|].
      - exfalso. apply Hni1. apply in_or_app. left.
        rewrite <- Epre, <- K1. apply in_map. exact Hin.
      - exfalso. apply Hni1. apply in_or_app. right.
        rewrite <- Epost, <- K1. apply in_map. exact Hin. }
    rewrite EL. apply top_first_max; [exact R1| |].
    - intros y Hy _.
      assert (Ky1 : key y <> u1).
      { fold L in Hnd. rewrite Ekeys' in Hnd.
        pose proof (NoDup_remove_2 _ _ _ Hnd) as Hni1.
        intros E. apply Hni1. apply in_or_app. left.
        rewrite <- Epre, <- E. apply in_map. exact Hy. }
      assert (Ky2 : key y <> u2).
      { intros E. apply Hni. rewrite <- Epre, <- E. apply in_map. exact Hy. }
      assert (HyL : In y L) by (rewrite EL; apply in_or_app; left; exact Hy).
      destruct (pinned_Hits y HyL) as [[? Hh]|[[? Hh]|[[? Hh]|(_ & _ & _ & Hh)]]];
        try contradiction; rewrite Hh, H1; lia.
    - intros y Hy _.
      assert (HyL : In y L)
        by (rewrite EL; apply in_or_app; right; right; exact Hy).
      destruct (pinned_Hits y HyL) as [[_ Hh]|[[_ Hh]|[[_ Hh]|(_ & _ & _ & Hh)]]];
        rewrite Hh, H1; lia. }
  set (L1 := update_key mark_released (key e1) L).
  set (L2 := update_key mark_released (key e2) L1).
  assert (Hnd1 : List.NoDup (map key L1)).
  { unfold L1. rewrite keys_update_key by reflexivity. exact Hnd. }
  (* second pop: u2 is alone at the top *)
  assert (T2 : top L1 = Some e2).
  { apply top_unique_max.
    - exact Hnd1.
    - apply In_update_other; [exact In2|congruence].
    - exact R2.
    - intros y Hy Ry Ky. apply In_update_marked in Hy as [Hy Ky1]; [|exact Ry].
      destruct (pinned_Hits y Hy) as [[? Hh]|[[? Hh]|[[? Hh]|(_ & _ & _ & Hh)]]];
        try (exfalso; congruence); rewrite Hh, H2; lia. }
  (* third pop: u3 is alone at the top *)
  assert (T3 : top L2 = Some e3).
  { apply top_unique_max.
    - unfold L2. rewrite keys_update_key by reflexivity. exact Hnd1.
    - apply In_update_other; [|congruence].
      apply In_update_other; [exact In3|congruence].
    - exact R3.
    - intros y Hy Ry Ky. apply In_update_marked in Hy as [Hy Ky2]; [|exact Ry].
      apply In_update_marked in Hy as [Hy Ky1]; [|exact Ry].
      destruct (pinned_Hits y Hy) as [[? Hh]|[[? Hh]|[[? Hh]|(_ & _ & _ & Hh)]]];
        try (exfalso; congruence); rewrite Hh, H3; lia. }
  exists e1, e2, e3.
  eexists _, _, _.
  split; [apply Pop_top; exact T1|].
  split; [apply Pop_top; exact T2|].
  split; [apply Pop_top; exact T3|].
  auto.
Qed.

End Pinned.

(** *** The accumulator *)

Lemma hits_apply (o : Op V) q :
  hits (apply o q)
  = (hits q + match o with OHit _ _ => 1 | _ => 0 end).
Proof.
  destruct o; simpl; try lia.
  unfold Pop. destruct (top (entries q)); simpl; lia.
Qed.

Lemma hits_run ops q :
  hits (run ops q) = hits q + total_hits ops.
Proof.
  revert q. induction ops as [|o ops IH]; intros q; simpl.
  - lia.
  - change (hits (run ops (apply o q))
            = hits q + total_hits (o :: ops)).
    rewrite IH, hits_apply. destruct o; simpl total_hits; lia.
Qed.

Lemma total_hits_split u1 u2 u3 ops :
  u1 <> u2 -> u1 <> u3 -> u2 <> u3 ->
  total_hits ops
  = hits_of u1 ops + hits_of u2 ops + hits_of u3 ops
    + hits_elsewhere [u1; u2; u3] ops.
Proof.
  intros N12 N13 N23. induction ops as [|o ops IH]; simpl; [reflexivity|].
  destruct o as [k v| | |k|k]; auto. rewrite IH.
  destruct (String.eqb_spec k u1) as [E1|K1];
    destruct (String.eqb_spec k u2) as [E2|K2];
    destruct (String.eqb_spec k u3) as [E3|K3];
    subst; simpl; try congruence; lia.
Qed.

End QueueProperties.

Section QueueClaims.

Import mfr.
Local Open Scope Z_scope.
Context {V : Type}.

(** C2.  The queue's accumulator is the number of [Hit] calls made since
    [NewQueue], whatever else was called in between; [Pop] leaves it as
    it is; and after 10000, 10000 and 9000 hits on three keys and 100000
    hits on other keys, three pops later it reads 129000. *)
Theorem hits_counts_every_Hit (ops : list (Op V)) :
  hits (run ops NewQueue) = total_hits ops /\
  (forall q : Queue V, hits (snd (Pop q)) = hits q) /\
  (forall u1 u2 u3,
      u1 <> u2 -> u1 <> u3 -> u2 <> u3 ->
      hits_of u1 ops = 10000 -> hits_of u2 ops = 10000 ->
      hits_of u3 ops = 9000 ->
      hits_elsewhere [u1; u2; u3] ops = 100000 ->
      hits (run (ops ++ [OPop; OPop; OPop]) NewQueue) = 129000).
Proof.
  split; [|split].
  - rewrite hits_run. simpl. lia.
  - intros q. unfold Pop. destruct (top (entries q)); reflexivity.
  - intros u1 u2 u3 N12 N13 N23 E1 E2 E3 E4.
    rewrite hits_run, total_hits_app. simpl.
    rewrite (total_hits_split u1 u2 u3 ops N12 N13 N23), E1, E2, E3, E4.
    reflexivity.
Qed.


(** C3.  On a queue built by any sequence of calls, when [Pop] returns
    the entry [e]: after [Release(e.key)] the queue is as it was before
    the pop and the next [Pop] returns [e] again; after [Fold(e.key)]
    the next [Pop] returns what it would have returned without the fold,
    which is nil or an entry of another key, with no more hits than [e],
    and it is an entry whenever the queue holds another one that is not
    released. *)
Theorem Release_returns_popped_Fold_drops (ops : list (Op V)) e q1 :
  Pop (run ops NewQueue) = (Some e, q1) ->
  Release (key e) q1 = run ops NewQueue /\
  Pop (Release (key e) q1) = (Some e, q1) /\
  fst (Pop (Fold (key e) q1)) <> Some e /\
  fst (Pop (Fold (key e) q1)) = fst (Pop q1) /\
  (forall e2, fst (Pop (Fold (key e) q1)) = Some e2 ->
              key e2 <> key e /\ Hits e2 <= Hits e) /\
  ((exists x, In x (queued (run ops NewQueue)) /\ key x <> key e) ->
   exists e2, fst (Pop (Fold (key e) q1)) = Some e2).
Proof.
  intros HP.
  assert (Hnd : List.NoDup (map key (entries (run ops NewQueue))))
    by (apply NoDup_keys_run; constructor).
  destruct (Pop_spec _ _ _ HP) as (Hin & Hr & Hmax & Hrem & Hh).
  pose proof (Pop_Some _ _ _ HP) as [Ht Eq1].
  assert (HR : Release (key e) q1 = run ops NewQueue).
  { rewrite Eq1. unfold Release. simpl.
    rewrite update_key_requeue_marked by assumption.
    destruct (run ops NewQueue); reflexivity. }
  assert (HF : top (entries (Fold (key e) q1)) = top (entries q1)).
  { simpl. apply top_remove_released. rewrite Eq1. simpl.
    intros x Hx Kx. destruct (released x) eqn:Rx; [reflexivity|].
    destruct (In_update_marked _ _ _ Hx Rx). contradiction. }
  assert (HF' : fst (Pop (Fold (key e) q1)) = top (entries q1)).
  { unfold Pop. rewrite HF. destruct (top (entries q1)); reflexivity. }
  assert (HP1 : fst (Pop q1) = top (entries q1)).
  { unfold Pop. destruct (top (entries q1)); reflexivity. }
  assert (Hnext : forall e2, top (entries q1) = Some e2 ->
                             key e2 <> key e /\ Hits e2 <= Hits e).
  { intros e2 H2. destruct (top_In _ _ H2) as [In2 R2].
    assert (Hq : In e2 (queued q1)) by (apply In_queued; auto).
    apply Hrem in Hq as [Hq K2]. apply In_queued in Hq as [Hq _].
    split; [exact K2|]. apply Hmax; assumption. }
  split; [exact HR|split; [rewrite HR; exact HP|]].
  rewrite HF'. split; [|split; [|split]].
  - intros E. destruct (Hnext _ E) as [K _]. apply K. reflexivity.
  - symmetry. exact HP1.
  - exact Hnext.
  - intros (x & Hx & Kx).
    destruct (top (entries q1)) as [e2|] eqn:E; [eauto|exfalso].
    assert (Hq : In x (queued q1)) by (apply Hrem; auto).
    apply In_queued in Hq as [Hq Rq].
    pose proof (proj1 (top_None _) E x Hq). congruence.
Qed.

End QueueClaims.

(** *** The test workload *)

Section QueueWorkload.

Import mfr.
Local Open Scope Z_scope.

Lemma producer_succ k c n :
  producer k c (N.succ n) = OHit k c :: OPeek :: producer k c n.
Proof. unfold producer. rewrite N.iter_succ. reflexivity. Qed.

Lemma noise_succ n :
  noise (N.succ n)
  = noise n ++ [OPeek; OHit (noise_key n) (pretty n, noise_key n)].
Proof. unfold noise. rewrite N.peano_rect_succ. reflexivity. Qed.

Lemma hits_of_producer k u c n :
  hits_of k (producer u c n) = if String.eqb u k then Z.of_N n else 0.
Proof.
  induction n as [|n IH] using N.peano_ind.
  - destruct (String.eqb u k); reflexivity.
  - rewrite producer_succ. simpl. rewrite IH.
    destruct (String.eqb u k); lia.
Qed.

Lemma producer_ops k c n : forallb producer_op (producer k c n) = true.
Proof.
  induction n as [|n IH] using N.peano_ind; [reflexivity|].
  rewrite producer_succ. simpl. exact IH.
Qed.

Lemma noise_ops n : forallb producer_op (noise n) = true.
Proof.
  induction n as [|n IH] using N.peano_ind; [reflexivity|].
  rewrite noise_succ, forallb_app, IH. reflexivity.
Qed.

Lemma noise_key_inj i j : noise_key i = noise_key j -> i = j.
Proof.
  unfold noise_key. simpl. intros H. injection H as H.
  apply (inj pretty). exact H.
Qed.

Lemma hits_of_peek_hit {V} k k' (v : V) :
  hits_of k [OPeek; OHit k' v] = if String.eqb k' k then 1 else 0.
Proof. simpl. destruct (String.eqb k' k); reflexivity. Qed.

(** The keys of the noise are fresh: none is hit twice. *)
Lemma hits_of_noise k n :
  0 <= hits_of k (noise n) <= 1 /\
  (1 <= hits_of k (noise n) -> exists j, (j < n)%N /\ k = noise_key j).
Proof.
  induction n as [|n [IH1 IH2]] using N.peano_ind.
  - simpl. split; [lia|]. intros H. exfalso. lia.
  - rewrite noise_succ, hits_of_app, hits_of_peek_hit.
    destruct (String.eqb_spec (noise_key n) k) as [E|E].
    + assert (hits_of k (noise n) = 0).
      { destruct (Z_lt_le_dec (hits_of k (noise n)) 1) as [|Hge]; [lia|].
        destruct (IH2 Hge) as (j & Hj & Ej).
        rewrite Ej in E. apply noise_key_inj in E. lia. }
      split; [lia|]. intros _. exists n. split; [lia|congruence].
    + split; [lia|]. intros H. destruct IH2 as (j & Hj & Ej); [lia|].
      exists j. split; [lia|exact Ej].
Qed.

Lemma hits_of_noise_pinned k n :
  String.get 0 k <> Some "n"%char -> hits_of k (noise n) = 0.
Proof.
  intros Hk. destruct (hits_of_noise k n) as [H1 H2].
  destruct (Z_lt_le_dec (hits_of k (noise n)) 1) as [|Hge]; [lia|].
  destruct (H2 Hge) as (j & _ & ->). exfalso. apply Hk. reflexivity.
Qed.

Lemma hits_elsewhere_app {V} us (ops1 ops2 : list (Op V)) :
  hits_elsewhere us (ops1 ++ ops2)
  = hits_elsewhere us ops1 + hits_elsewhere us ops2.
Proof.
  induction ops1 as [|o ops1 IH]; simpl; [reflexivity|].
  destruct o; auto. rewrite IH. lia.
Qed.

Lemma hits_elsewhere_producer us k c n :
  existsb (String.eqb k) us = true -> hits_elsewhere us (producer k c n) = 0.
Proof.
  intros Hk. induction n as [|n IH] using N.peano_ind; [reflexivity|].
  rewrite producer_succ. simpl. rewrite Hk, IH. reflexivity.
Qed.

Lemma hits_elsewhere_noise n :
  hits_elsewhere ["u1"; "u2"; "u3"] (noise n) = Z.of_N n.
Proof.
  induction n as [|n IH] using N.peano_ind; [reflexivity|].
  rewrite noise_succ, hits_elsewhere_app, IH.
  change (hits_elsewhere ["u1"; "u2"; "u3"]
            [OPeek; OHit (noise_key n) (pretty n, noise_key n)]) with 1.
  lia.
Qed.

Lemma second_first_hits k :
  hits_of k second_first
  = (if String.eqb "u2" k then 10000 else 0)
    + (if String.eqb "u1" k then 10000 else 0)
    + (if String.eqb "u3" k then 9000 else 0)
    + hits_of k (noise 100000).
Proof.
  unfold second_first. rewrite !hits_of_app, !hits_of_producer.
  change (Z.of_N 10000) with 10000. change (Z.of_N 9000) with 9000. lia.
Qed.

Lemma second_first_pinned :
  pinned_workload "u1" "u2" "u3" 10000 9000 second_first.
Proof.
  split.
  { unfold second_first. rewrite !forallb_app, !producer_ops, noise_ops.
    reflexivity. }
  split; [discriminate|]. split; [discriminate|]. split; [discriminate|].
  split; [|split; [|split]].
  - rewrite second_first_hits, hits_of_noise_pinned by discriminate. reflexivity.
  - rewrite second_first_hits, hits_of_noise_pinned by discriminate. reflexivity.
  - rewrite second_first_hits, hits_of_noise_pinned by discriminate. reflexivity.
  - intros k K1 K2 K3. rewrite second_first_hits.
    apply not_eq_sym, String.eqb_neq in K1, K2, K3. rewrite K1, K2, K3.
    pose proof (hits_of_noise k 100000). lia.
Qed.

Lemma second_first_elsewhere :
  hits_elsewhere ["u1"; "u2"; "u3"] second_first = 100000.
Proof.
  unfold second_first.
  rewrite !hits_elsewhere_app, !hits_elsewhere_producer by reflexivity.
  rewrite hits_elsewhere_noise. reflexivity.
Qed.

Lemma second_first_order : hit_first "u2" "u1" second_first = true.
Proof.
  unfold second_first.
  change 10000%N with (N.succ 9999) at 1. rewrite producer_succ. reflexivity.
Qed.

(** Run with the second producer ahead of the first, the workload of the
    test has [u2] hit before [u1], and the first pop returns the entry
    of [u2]: between the two keys the order of the first hits decides. *)
Lemma second_producer_pops_first :
  pinned_workload "u1" "u2" "u3" 10000 9000 second_first /\
  exists e q',
    Pop (run second_first NewQueue) = (Some e, q') /\
    key e = "u2" /\ Hits e = 10000.
Proof.
  split; [exact second_first_pinned|].
  destruct (pops_pinned "u2" "u1" "u3" 10000 9000 second_first)
    as (e1 & e2 & e3 & q1 & q2 & q3 & P1 & _ & _ & (K & H & _) & _).
  - apply pinned_swap, second_first_pinned.
  - lia.
  - lia.
  - lia.
  - exact second_first_order.
  - exists e1, q1. auto.
Qed.



(** The workload of the test, then three pops. *)
Lemma hits_counts_every_Hit_witness :
  hits (run (second_first ++ [OPop; OPop; OPop]) NewQueue) = 129000.
Proof.
  refine (proj2 (proj2 (hits_counts_every_Hit second_first))
            "u1" "u2" "u3" _ _ _ _ _ _ _).
  - discriminate.
  - discriminate.
  - discriminate.
  - exact (proj1 (proj2 (proj2 (proj2 (proj2 second_first_pinned))))).
  - exact (proj1 (proj2 (proj2 (proj2 (proj2 (proj2 second_first_pinned)))))).
  - exact (proj1 (proj2 (proj2 (proj2 (proj2 (proj2 (proj2 second_first_pinned))))))).
  - exact second_first_elsewhere.
Defined.

(** The small workload: the first pop returns the entry of [u1]; released,
    it is popped again; folded, the next pop returns another entry. *)
Lemma Release_returns_popped_Fold_drops_witness :
  exists e q1,
    Pop (run small_workload NewQueue) = (Some e, q1) /\
    key e = "u1" /\
    Pop (Release "u1" q1) = (Some e, q1) /\
    fst (Pop (Fold "u1" q1)) <> Some e.
Proof.
  destruct (Pop (run small_workload NewQueue)) as [[e|] q1] eqn:E;
    [|discriminate E].
  exists e, q1.
  assert (K : key e = "u1") by (injection E as <- _; reflexivity).
  destruct (Release_returns_popped_Fold_drops small_workload e q1 E)
    as (_ & HR & HF & _).
  rewrite K in HR, HF. auto.
Defined.

End QueueWorkload.

(** ** The fragment cache *)

Section ClientProperties.

Import client.

Lemma take_hex_spec n s h rest :
  take_hex n s = Some (h, rest) ->
  String.length h = n /\
  forallb is_lower_hex (list_ascii_of_string h) = true /\
  s = h +:+ rest.
Proof.
  revert s h rest. induction n as [|n IH]; intros s h rest; simpl.
  - intros H. injection H as <- <-. auto.
  - destruct s as [|c s]; [discriminate|].
    destruct (is_lower_hex c) eqn:Hc; [|discriminate].
    destruct (take_hex n s) as [[h' r']|] eqn:Ht; [|discriminate].
    intros H. injection H as <- <-.
    destruct (IH _ _ _ Ht) as (Hl & Hf & ->). simpl.
    rewrite Hl, Hc, Hf. auto.
Qed.

Lemma match_here_hash s h : match_here s = Some h -> is_sd_hash h = true.
Proof.
  unfold match_here.
  destruct (strip_prefix "/streams/" s) as [s1|]; [|discriminate].
  destruct (take_hex 96 s1) as [[h' rest]|] eqn:Ht; [|discriminate].
  destruct rest as [|c rest]; [discriminate|].
  destruct c as [[] [] [] [] [] [] [] []]; try discriminate.
  intros H. injection H as <-.
  destruct (take_hex_spec _ _ _ _ Ht) as (Hl & Hf & _).
  unfold is_sd_hash. rewrite Hl, Hf. reflexivity.
Qed.

(** What the pattern captures is 96 lower-case hex digits. *)
Lemma sdHashRe_hash s h : sdHashRe s = Some h -> is_sd_hash h = true.
Proof.
  induction s as [|c s IH]; cbn [sdHashRe].
  - destruct (match_here "") eqn:E; [|discriminate].
    intros H. injection H as <-. eapply match_here_hash; eauto.
  - destruct (match_here (String c s)) eqn:E.
    + intros H. injection H as <-. eapply match_here_hash; eauto.
    + exact IH.
Qed.

Section Upstream.

Variable playlist : string -> string.

(** C8.  [fragmentURL] succeeds exactly when the hash the pattern finds
    for [url] is the hash supplied: it then returns
    [<server>/streams/<hash>/<name>] and no error, and the hash is 96
    lower-case hex digits.  In every other case, and so whenever the
    hash supplied is not 96 lower-case hex digits, it returns the empty
    URL and an error whose message contains [remote sd hash mismatch]. *)
Theorem fragmentURL_checks_hash (c : Client) (url h name : string) :
  (sdHashRe (playlist url) = Some h ->
   is_sd_hash h = true /\
   fragmentURL playlist c url h name
   = (server c +:+ "/streams/" +:+ h +:+ "/" +:+ name, None)) /\
  (sdHashRe (playlist url) <> Some h ->
   exists msg,
     fragmentURL playlist c url h name = ("", Some msg) /\
     contains "remote sd hash mismatch" msg = true) /\
  (is_sd_hash h = false ->
   exists msg,
     fragmentURL playlist c url h name = ("", Some msg) /\
     contains "remote sd hash mismatch" msg = true).
Proof.
  assert (Hmis : sdHashRe (playlist url) <> Some h ->
                 exists msg,
                   fragmentURL playlist c url h name = ("", Some msg) /\
                   contains "remote sd hash mismatch" msg = true).
  { intros Hne. exists "remote sd hash mismatch". split; [|reflexivity].
    unfold fragmentURL. destruct (sdHashRe (playlist url)) as [h'|]; [|reflexivity].
    destruct (String.eqb_spec h' h) as [->|]; [congruence|reflexivity]. }
  split; [|split].
  - intros H. split; [eapply sdHashRe_hash; eauto|].
    unfold fragmentURL. rewrite H, String.eqb_refl. reflexivity.
  - exact Hmis.
  - intros Hh. apply Hmis. intros H. apply sdHashRe_hash in H. congruence.
Qed.

End Upstream.

(** *** The scan *)

Lemma walk_length (d : Disk) : length (walk d) = file_count d.
Proof.
  unfold walk, file_count.
  induction (map_to_list d) as [|[h files] l IH]; [reflexivity|].
  cbn [mbind list_bind]. rewrite length_app, IH. cbn [sum_list_with snd].
  f_equal. rewrite <- length_map_to_list.
  induction (map_to_list files) as [|[n sz] fl IHf]; [reflexivity|].
  cbn [mbind list_bind]. simpl. rewrite <- IHf. reflexivity.
Qed.

Lemma elem_of_walk (d : Disk) (f : Fragment) :
  f ∈ walk d <-> stat_size d (sdHash f) (name f) = Some (fsize f).
Proof.
  unfold walk, stat_size. rewrite list_elem_of_bind. split.
  - intros ([h files] & Hf & Hd). apply elem_of_map_to_list in Hd.
    apply list_elem_of_bind in Hf as ([n sz] & Hf & Hn).
    apply elem_of_map_to_list in Hn. apply list_elem_of_singleton in Hf.
    subst f. simpl. rewrite Hd. simpl. exact Hn.
  - intros H. destruct (d !! sdHash f) as [files|] eqn:Hd; [|discriminate].
    simpl in H. exists (sdHash f, files). split.
    + apply list_elem_of_bind. exists (name f, fsize f). split.
      * apply list_elem_of_singleton. destruct f; reflexivity.
      * apply elem_of_map_to_list. exact H.
    + apply elem_of_map_to_list. exact Hd.
Qed.

Lemma register_lookup (c : Client) (fs : list Fragment) (f : Fragment) :
  (forall f', f' ∈ fs -> sdHash f' = sdHash f -> name f' = name f -> f' = f) ->
  cache c !! (sdHash f, name f) = Some f \/ f ∈ fs ->
  cache (foldl register c fs) !! (sdHash f, name f) = Some f.
Proof.
  revert c. induction fs as [|x fs IH]; intros c Hsame H; simpl.
  - destruct H as [H|H]; [exact H|inversion H].
  - apply IH.
    + intros f' Hf'. apply Hsame. right. exact Hf'.
    + destruct (decide ((sdHash x, name x) = (sdHash f, name f))) as [E|Hne].
      * left. injection E as E1 E2.
        assert (x = f) as -> by (apply Hsame; [left|exact E1|exact E2]).
        simpl. apply lookup_insert_eq.
      * destruct H as [H|H].
        -- left. simpl. rewrite lookup_insert_ne; [exact H|exact Hne].
        -- right. apply elem_of_cons in H as [->|H]; [congruence|exact H].
Qed.

Lemma file_count_uniform (d : Disk) (n f : nat) :
  size d = n -> map_Forall (fun _ (fs : gmap string Z) => size fs = f) d ->
  file_count d = n * f.
Proof.
  intros <- H. apply map_Forall_to_list in H.
  unfold file_count. rewrite <- length_map_to_list.
  induction H as [|[h fs] l Hx Hl IH]; [reflexivity|].
  simpl in *. rewrite IH, Hx. reflexivity.
Qed.

Section Fetch.

Variable fetch : Client -> string -> string -> string
                 -> option Fragment * option error.

(** C9.  [RestoreCache] fails on no tree and returns the number of files
    in it, all directories together: 3170 for ten directories of
    78*4+5 files each.  Afterwards every file of the tree is a hit of
    [getCachedFragment] under its directory and name, and the entry
    returned has the size [os.Stat] reports for the file. *)
Theorem RestoreCache_registers_every_file (c : Client) (d : Disk) :
  snd (fst (RestoreCache c d)) = None /\
  fst (fst (RestoreCache c d)) = Z.of_nat (file_count d) /\
  (size d = 10 ->
   map_Forall (fun _ (fs : gmap string Z) => size fs = 78 * 4 + 5) d ->
   fst (fst (RestoreCache c d)) = 3170%Z) /\
  (forall url h n sz,
      stat_size d h n = Some sz ->
      exists f,
        getCachedFragment fetch (snd (RestoreCache c d)) url h n
        = (Some f, true, None) /\
        sdHash f = h /\ name f = n /\ Size f = sz).
Proof.
  unfold RestoreCache. simpl. rewrite walk_length.
  split; [reflexivity|split; [reflexivity|split]].
  - intros Hs Hf. rewrite (file_count_uniform d _ _ Hs Hf). reflexivity.
  - intros url h n sz Hst.
    set (f := {| sdHash := h; name := n; fsize := sz |}).
    assert (Hl : cache (foldl register c (walk d)) !! (h, n) = Some f).
    { apply (register_lookup c (walk d) f).
      - intros f' Hf' E1 E2. apply elem_of_walk in Hf'.
        rewrite E1, E2 in Hf'. simpl in Hf'.
        rewrite Hst in Hf'. injection Hf' as E3.
        destruct f' as [h' n' sz']. unfold f in *. simpl in *. congruence.
      - right. apply elem_of_walk. exact Hst. }
    exists f. unfold getCachedFragment. rewrite Hl. auto.
Qed.

End Fetch.

(** The cases of [Test_fragmentURL]: the stream with its own hash, and a
    stream the server does not know. *)
Lemma fragmentURL_checks_hash_witness :
  fragmentURL test_playlist (New test_server "/tmp") vanquish vanquish_hash
    "master.m3u8"
  = ("http://t0.lbry.tv:18081/streams/bec50ab288153ed03b0eb8dafd814daf19a187e07f8da4ad91cf778f5c39ac74d9d92ad6e3ebf2ddb6b7acea3cb8893a/master.m3u8",
     None) /\
  exists msg,
    fragmentURL test_playlist (New test_server "/tmp") "morgan" other_hash
      "master.m3u8" = ("", Some msg) /\
    contains "remote sd hash mismatch" msg = true.
Proof.
  split.
  - refine (proj2 (proj1 (fragmentURL_checks_hash test_playlist
              (New test_server "/tmp") vanquish vanquish_hash "master.m3u8") _)).
    vm_compute. reflexivity.
  - refine (proj1 (proj2 (fragmentURL_checks_hash test_playlist
              (New test_server "/tmp") "morgan" other_hash "master.m3u8")) _).
    vm_compute. discriminate.
Defined.

(** Ten directories of 317 files, as [TestRestoreCache] populates them. *)
Lemma RestoreCache_registers_every_file_witness :
  fst (fst (RestoreCache (New test_server "/tmp") (populated 10 317))) = 3170%Z /\
  exists f,
    getCachedFragment no_fetch
      (snd (RestoreCache (New test_server "/tmp") (populated 10 317)))
      "zzz" "stream3" "seg100.ts" = (Some f, true, None) /\
    Size f = 10000%Z.
Proof.
  pose proof (RestoreCache_registers_every_file no_fetch
                (New test_server "/tmp") (populated 10 317))
    as (_ & _ & H3 & H4).
  split.
  - apply H3.
    + vm_compute. reflexivity.
    + compute_done.
  - destruct (H4 "zzz" "stream3" "seg100.ts" 10000%Z) as (f & Hf & _ & _ & Hs).
    + vm_compute. reflexivity.
    + exists f. split; [exact Hf|exact Hs].
Defined.

End ClientProperties.
